(** * Spring.cc: the spring dynamics engine [AdvancedSpringPhysics]

    A shallow embedding of [AdvancedSpringPhysics] (src/Spring.cc, lines
    14-189): the [SpringState] record, the constructor defaults and the three
    engine calls [update] (the spec's integrate), [dragTo] and [release].

    Numbers.  The C++ [double] fields are embedded as real numbers [R]: the
    arithmetic is exact, without rounding, overflow or NaN, so every result
    below is a statement about the program in real arithmetic.  Two things
    follow.  Where a result gives an exact length (a clamped position lies
    at exactly the bound, a reachable position lies inside the envelope),
    the program's doubles can be one unit in the last place beside it: the
    position [anchor + bound * (cos a, sin a)] is then at distance
    450.00000000000006 or 99.99999999999999, not 450 or 100.  And a division
    whose divisor is zero has no real value (the C++ program produces an
    infinity or a NaN there and carries on), so division is the partial
    operation [fdiv] and the code that divides runs in the [option] monad:
    [None] means that the call divided by zero, and the run ends there.

    Library functions.  [std::sqrt], [std::cos], [std::sin] and [std::abs] are
    the Standard Library's [sqrt], [cos], [sin] and [Rabs]; [std::atan2] is
    defined below from [atan] with the usual quadrant conventions. *)

From Stdlib Require Import ZArith Reals Lra Lia Bool List.
Import ListNotations.
Open Scope R_scope.

(** ** Numeric primitives *)

(** [a / b] on doubles; [None] when the divisor is zero. *)
Definition fdiv (a b : R) : option R :=
  if Req_dec_T b 0 then None else Some (a / b).

Definition bind {A B : Type} (m : option A) (k : A -> option B) : option B :=
  match m with
  | Some a => k a
  | None => None
  end.

Notation "x <- m ;; k" := (bind m (fun x => k))
  (at level 61, m at next level, right associativity).
Notation "a // b" := (fdiv a b) (at level 40, left associativity).

(** Comparisons of doubles as booleans. *)
Definition ltb (a b : R) : bool := if Rlt_dec a b then true else false.
Definition leb (a b : R) : bool := if Rle_dec a b then true else false.
Definition gtb (a b : R) : bool := ltb b a.
Definition geb (a b : R) : bool := leb b a.

(** [std::atan2(y, x)]: the angle of the vector [(x, y)], in [(-PI, PI]];
    [atan2(0, 0) = 0]. *)
Definition atan2 (y x : R) : R :=
  if Rlt_dec 0 x then atan (y / x)
  else if Rlt_dec x 0 then
    (if Rle_dec 0 y then atan (y / x) + PI else atan (y / x) - PI)
  else if Rlt_dec 0 y then PI / 2
  else if Rlt_dec y 0 then - (PI / 2)
  else 0.

(** ** The data model (Spring.cc, lines 16-36) *)

Record SpringState : Type := mkSpringState {
  anchorX : R;
  anchorY : R;
  currentX : R;
  currentY : R;
  restLength : R;
  currentLength : R;
  stiffness : R;
  damping : R;
  mass : R;
  velocityX : R;
  velocityY : R;
  isDragged : bool;
  minLength : R;
  maxLength : R;
  isLimitReached : bool;
  lastDragX : R;
  lastDragY : R;
  initialReleaseVelocityX : R;
  initialReleaseVelocityY : R
}.

Definition SCREEN_WIDTH : R := 800.
Definition SCREEN_HEIGHT : R := 600.

(** The constructor (lines 40-63). *)
Definition initial : SpringState :=
  {| anchorX := SCREEN_WIDTH / 2;
     anchorY := 100;
     currentX := SCREEN_WIDTH / 2;
     currentY := 300;
     restLength := 200;
     currentLength := 200;
     stiffness := 100;
     damping := 0.3;
     mass := 1;
     velocityX := 0;
     velocityY := 0;
     isDragged := false;
     minLength := 100;
     maxLength := 450;
     isLimitReached := false;
     lastDragX := SCREEN_WIDTH / 2;
     lastDragY := 300;
     initialReleaseVelocityX := 0;
     initialReleaseVelocityY := 0 |}.

(** Assignments to groups of fields of [state]. *)
Definition set_current (x y : R) (s : SpringState) : SpringState :=
  mkSpringState (anchorX s) (anchorY s) x y (restLength s) (currentLength s)
    (stiffness s) (damping s) (mass s) (velocityX s) (velocityY s)
    (isDragged s) (minLength s) (maxLength s) (isLimitReached s)
    (lastDragX s) (lastDragY s)
    (initialReleaseVelocityX s) (initialReleaseVelocityY s).

Definition set_velocity (vx vy : R) (s : SpringState) : SpringState :=
  mkSpringState (anchorX s) (anchorY s) (currentX s) (currentY s)
    (restLength s) (currentLength s)
    (stiffness s) (damping s) (mass s) vx vy
    (isDragged s) (minLength s) (maxLength s) (isLimitReached s)
    (lastDragX s) (lastDragY s)
    (initialReleaseVelocityX s) (initialReleaseVelocityY s).

Definition set_lastDrag (x y : R) (s : SpringState) : SpringState :=
  mkSpringState (anchorX s) (anchorY s) (currentX s) (currentY s)
    (restLength s) (currentLength s)
    (stiffness s) (damping s) (mass s) (velocityX s) (velocityY s)
    (isDragged s) (minLength s) (maxLength s) (isLimitReached s)
    x y
    (initialReleaseVelocityX s) (initialReleaseVelocityY s).

Definition set_initialReleaseVelocity (vx vy : R) (s : SpringState)
  : SpringState :=
  mkSpringState (anchorX s) (anchorY s) (currentX s) (currentY s)
    (restLength s) (currentLength s)
    (stiffness s) (damping s) (mass s) (velocityX s) (velocityY s)
    (isDragged s) (minLength s) (maxLength s) (isLimitReached s)
    (lastDragX s) (lastDragY s) vx vy.

Definition set_isDragged (b : bool) (s : SpringState) : SpringState :=
  mkSpringState (anchorX s) (anchorY s) (currentX s) (currentY s)
    (restLength s) (currentLength s)
    (stiffness s) (damping s) (mass s) (velocityX s) (velocityY s)
    b (minLength s) (maxLength s) (isLimitReached s)
    (lastDragX s) (lastDragY s)
    (initialReleaseVelocityX s) (initialReleaseVelocityY s).

Definition set_isLimitReached (b : bool) (s : SpringState) : SpringState :=
  mkSpringState (anchorX s) (anchorY s) (currentX s) (currentY s)
    (restLength s) (currentLength s)
    (stiffness s) (damping s) (mass s) (velocityX s) (velocityY s)
    (isDragged s) (minLength s) (maxLength s) b
    (lastDragX s) (lastDragY s)
    (initialReleaseVelocityX s) (initialReleaseVelocityY s).

(** The distance from the anchor to the current position, as [update] and
    [dragTo] compute it: [std::sqrt(dx*dx + dy*dy)]. *)
Definition hypot (dx dy : R) : R := sqrt (dx * dx + dy * dy).

Definition springLength (s : SpringState) : R :=
  hypot (currentX s - anchorX s) (currentY s - anchorY s).

(** ** [update] (lines 65-141) *)

(** Lines 67-81: the dragged branch, which only samples a release velocity.
    With [deltaTime = 0] the result is [None]; the program stores a NaN (or
    an infinity) as release velocity there and goes on, and a NaN is not
    consumed by the handoff of lines 90-98, whose test it fails. *)
Definition sampleDrag (deltaTime : R) (s : SpringState) : option SpringState :=
  let dx := currentX s - lastDragX s in
  let dy := currentY s - lastDragY s in
  rvx <- dx // deltaTime ;;
  rvy <- dy // deltaTime ;;
  let s := set_initialReleaseVelocity rvx rvy s in
  let s := set_lastDrag (currentX s) (currentY s) s in
  Some s.

(** Lines 89-98: the pending release velocity becomes the live velocity. *)
Definition releaseHandoff (s : SpringState) : SpringState :=
  if gtb (Rabs (initialReleaseVelocityX s)) 0
     || gtb (Rabs (initialReleaseVelocityY s)) 0
  then
    let s := set_velocity (initialReleaseVelocityX s)
                          (initialReleaseVelocityY s) s in
    set_initialReleaseVelocity 0 0 s
  else s.

(** Lines 100-117: forces, then the velocity and the position.  [dx], [dy]
    and [currentLength] are the locals of lines 85-87; they are computed
    before the handoff, which does not move the mass. *)
Definition applyForces (deltaTime dx dy len : R) (s : SpringState)
  : option SpringState :=
  ux <- dx // len ;;
  uy <- dy // len ;;
  let springForceX := - stiffness s * (len - restLength s) * ux in
  let springForceY := - stiffness s * (len - restLength s) * uy in
  let dampingForceX := - damping s * velocityX s in
  let dampingForceY := - damping s * velocityY s in
  let gravityForceY := mass s * 9.8 in
  ax <- (springForceX + dampingForceX) // mass s ;;
  ay <- (springForceY + dampingForceY + gravityForceY) // mass s ;;
  let s := set_velocity (velocityX s + ax * deltaTime)
                        (velocityY s + ay * deltaTime) s in
  let s := set_current (currentX s + velocityX s * deltaTime)
                       (currentY s + velocityY s * deltaTime) s in
  Some s.

(** Lines 119-140: the length constraints.  In real arithmetic the clamped
    position is at exactly the bound; in the program's doubles it can be a
    unit in the last place outside, where the tests of lines 124 and 132
    fire again on the next call. *)
Definition enforceLimits (s : SpringState) : SpringState :=
  let dx := currentX s - anchorX s in
  let dy := currentY s - anchorY s in
  let len := hypot dx dy in
  if ltb len (minLength s) then
    let angle := atan2 dy dx in
    let s := set_current (anchorX s + minLength s * cos angle)
                         (anchorY s + minLength s * sin angle) s in
    set_velocity (velocityX s * -0.5) (velocityY s * -0.5) s
  else if gtb len (maxLength s) then
    let angle := atan2 dy dx in
    let s := set_current (anchorX s + maxLength s * cos angle)
                         (anchorY s + maxLength s * sin angle) s in
    set_velocity (velocityX s * -0.5) (velocityY s * -0.5) s
  else s.

(** The free-mode step up to, and without, the length constraints: the
    state whose length lines 119-122 measure. *)
Definition freeStep (deltaTime : R) (s : SpringState) : option SpringState :=
  let dx := currentX s - anchorX s in
  let dy := currentY s - anchorY s in
  let len := hypot dx dy in
  applyForces deltaTime dx dy len (releaseHandoff s).

Definition update (deltaTime : R) (s : SpringState) : option SpringState :=
  if isDragged s then sampleDrag deltaTime s
  else
    m <- freeStep deltaTime s ;;
    Some (enforceLimits m).

(** ** [dragTo] (lines 143-182) *)

(** As for [enforceLimits], the pinned position of lines 168-169 and 174-175
    is at exactly the bound in real arithmetic only. *)

Definition dragTo (mouseX mouseY : R) (s : SpringState) : SpringState :=
  let dx := mouseX - anchorX s in
  let dy := mouseY - anchorY s in
  let potentialLength := hypot dx dy in
  let angle := atan2 dy dx in
  if geb potentialLength (minLength s) && leb potentialLength (maxLength s)
  then
    let s := set_isDragged true s in
    let s := set_current mouseX mouseY s in
    let s := set_lastDrag mouseX mouseY s in
    let s := set_velocity 0 0 s in
    set_isLimitReached false s
  else
    let s := set_isDragged true s in
    if negb (isLimitReached s) then
      if ltb potentialLength (minLength s) then
        let s := set_current (anchorX s + minLength s * cos angle)
                             (anchorY s + minLength s * sin angle) s in
        let s := set_lastDrag (currentX s) (currentY s) s in
        set_isLimitReached true s
      else if gtb potentialLength (maxLength s) then
        let s := set_current (anchorX s + maxLength s * cos angle)
                             (anchorY s + maxLength s * sin angle) s in
        let s := set_lastDrag (currentX s) (currentY s) s in
        set_isLimitReached true s
      else s
    else s.

(** ** [release] (lines 184-188) *)

Definition release (s : SpringState) : SpringState :=
  set_isLimitReached false (set_isDragged false s).

Arguments ltb : simpl never.
Arguments leb : simpl never.
Arguments fdiv : simpl never.
Arguments hypot : simpl never.
Arguments atan2 : simpl never.

(** ** Sequences of engine calls *)

Inductive call : Type :=
| Update (deltaTime : R)
| DragTo (mouseX mouseY : R)
| Release.

Definition exec (c : call) (s : SpringState) : option SpringState :=
  match c with
  | Update deltaTime => update deltaTime s
  | DragTo mouseX mouseY => Some (dragTo mouseX mouseY s)
  | Release => Some (release s)
  end.

Fixpoint run (cs : list call) (s : SpringState) : option SpringState :=
  match cs with
  | [] => Some s
  | c :: cs' => s' <- exec c s ;; run cs' s'
  end.

(** The states the engine can be in: the constructed state, and every state
    a completed call returns from a reachable one. *)
Inductive reachable : SpringState -> Prop :=
| reachable_initial : reachable initial
| reachable_step c s s' :
    reachable s -> exec c s = Some s' -> reachable s'.

(** ** Vocabulary of the statements *)

(** The position lies in the envelope. *)
Definition inEnvelope (s : SpringState) : Prop :=
  minLength s <= springLength s <= maxLength s.

(** The topology and material fields, which no call assigns. *)
Definition sameParams (s s' : SpringState) : Prop :=
  anchorX s' = anchorX s /\ anchorY s' = anchorY s /\
  restLength s' = restLength s /\ currentLength s' = currentLength s /\
  stiffness s' = stiffness s /\ damping s' = damping s /\
  mass s' = mass s /\
  minLength s' = minLength s /\ maxLength s' = maxLength s.

(** During a drag the last-drag position is the current position. *)
Definition dragSynced (s : SpringState) : Prop :=
  isDragged s = true ->
  lastDragX s = currentX s /\ lastDragY s = currentY s.

Definition noPending (s : SpringState) : Prop :=
  initialReleaseVelocityX s = 0 /\ initialReleaseVelocityY s = 0.

Record Inv (s : SpringState) : Prop := mkInv {
  inv_bounds : 0 <= minLength s <= maxLength s;
  inv_envelope : inEnvelope s;
  inv_synced : dragSynced s;
  inv_limit : isLimitReached s = true -> isDragged s = true;
  inv_pending : noPending s
}.

(** The candidate length and the angle that [dragTo] computes (lines
    145-148). *)
Definition pointerLength (mx my : R) (s : SpringState) : R :=
  hypot (mx - anchorX s) (my - anchorY s).

Definition pointerAngle (mx my : R) (s : SpringState) : R :=
  atan2 (my - anchorY s) (mx - anchorX s).

(** The accelerations of lines 101-113. *)
Definition accelX (dx len : R) (s : SpringState) : R :=
  (- stiffness s * (len - restLength s) * (dx / len)
   + - damping s * velocityX s) / mass s.

Definition accelY (dy len : R) (s : SpringState) : R :=
  (- stiffness s * (len - restLength s) * (dy / len)
   + - damping s * velocityY s + mass s * 9.8) / mass s.




(** The mass grasped where it hangs in the constructed state: the state
    [dragTo 400 300] returns from [initial]. *)
Definition grasped : SpringState :=
  set_lastDrag 400 300 (set_current 400 300 (set_isDragged true initial)).

(** The grasped mass dragged down to (400, 350). *)
Definition held : SpringState :=
  set_lastDrag 400 350 (set_current 400 350 (set_isDragged true initial)).

(** A drag gesture that moves the mass by (0, 50) over one second, sampled
    at [deltaTime = 1], and then lets go. *)
Definition dragByFifty : list call :=
  [DragTo 400 300; Update 1; DragTo 400 350; Update 1; Release].

(** The state the gesture ends in. *)
Definition letGo : SpringState :=
  set_current 400 350 (set_lastDrag 400 350 initial).

(** The state the free step of ten seconds from the constructed state ends
    in before the length constraints: far below the maximum length. *)
Definition overshoot : SpringState :=
  set_current 400 (300 + 9.8 * 10 * 10) (set_velocity 0 (9.8 * 10) initial).

(** The mass placed on the anchor: a free-mode state of length 0. *)
Definition onAnchor : SpringState :=
  set_current (anchorX initial) (anchorY initial) initial.

(** A free-mode state with a pending release velocity. *)
Definition flung : SpringState := set_initialReleaseVelocity 1 0 initial.


(** * The renderer and the driver (Spring.cc, lines 10-13 and 191-597)

    [SpringRenderer] turns the physics state into draw calls and
    [SpringSimulation] feeds the engine from the event queue and the clock.
    The SDL calls themselves are outside the program; [render] is embedded
    as the function from the state to the arguments of the draw calls it
    issues, and the event loop as a function of the events and clock values
    it is given.  Narrowing a [double] to [float] is exact here, as all the
    arithmetic. *)

(** ** [clamp] (lines 10-13), [std::max], [std::min] *)

(** [std::max(a, b)] is [(a < b) ? b : a], [std::min(a, b)] is
    [(b < a) ? b : a]. *)
Definition fmax (a b : R) : R := if ltb a b then b else a.
Definition fmin (a b : R) : R := if ltb b a then b else a.

Definition clamp (value min max : R) : R := fmax min (fmin value max).

(** ** Casts to integer types *)

(** A floating-point value converted to an integer type is truncated
    towards zero. *)
Definition truncate (x : R) : Z :=
  if Rle_dec 0 x then Int_part x else (- Int_part (- x))%Z.

(** [static_cast<Uint8>(x)]: undefined unless the truncated value is a
    [Uint8]; [None] stands for that. *)
Definition toUint8 (x : R) : option Z :=
  let z := truncate x in
  if ((0 <=? z) && (z <=? 255))%Z then Some z else None.

(** ** SDL's plain structs, as far as the program uses them *)

Module SDL.

Record SDL_Color : Type := mkColor { r : Z; g : Z; b : Z; a : Z }.

Record SDL_Rect : Type := mkRect { x : Z; y : Z; w : Z; h : Z }.

End SDL.

(** A colour whose four channels are [Uint8] values. *)
Definition validColor (c : SDL.SDL_Color) : Prop :=
  (0 <= SDL.r c <= 255 /\ 0 <= SDL.g c <= 255 /\
   0 <= SDL.b c <= 255 /\ 0 <= SDL.a c <= 255)%Z.

(** ** [SpringRenderer] *)

(** [RenderConfig] (lines 198-207) and the constructor's values (lines
    330-339). *)
Record RenderConfig : Type := mkRenderConfig {
  coils : Z;
  springRadius : R;
  wireThickness : R;
  maxWireThickness : R;
  neutralColor : SDL.SDL_Color;
  stretchColor : SDL.SDL_Color;
  compressColor : SDL.SDL_Color;
  maxDeformationThreshold : R
}.

Definition renderConfig : RenderConfig :=
  {| coils := 9;
     springRadius := 25;
     wireThickness := 3;
     maxWireThickness := 20;
     neutralColor := SDL.mkColor 200 200 200 255;
     stretchColor := SDL.mkColor 255 50 50 255;
     compressColor := SDL.mkColor 50 50 105 255;
     maxDeformationThreshold := 0.2 |}.

(** [interpolateColor] (lines 212-220). *)
Definition interpolateColor (color1 color2 : SDL.SDL_Color) (factor : R)
  : option SDL.SDL_Color :=
  let factor := fmax 0 (fmin 1 factor) in
  r <- toUint8 (IZR (SDL.r color1) * (1 - factor)
                + IZR (SDL.r color2) * factor) ;;
  g <- toUint8 (IZR (SDL.g color1) * (1 - factor)
                + IZR (SDL.g color2) * factor) ;;
  b <- toUint8 (IZR (SDL.b color1) * (1 - factor)
                + IZR (SDL.b color2) * factor) ;;
  Some (SDL.mkColor r g b 255).

(** The [float] literals [0.3f] and [0.7f] of lines 449 and 455, which are
    not the decimals: their exact binary values. *)
Definition float_0_3 : R := 10066330 / 33554432.
Definition float_0_7 : R := 11744051 / 16777216.

(** The arguments of one [drawSmoothGradientThickLine] call and of one
    [drawAntialiasedThickLine] call. *)
Record GradientLine : Type := mkGradientLine {
  gradientFrom : R * R;
  gradientTo : R * R;
  gradientThickness : R;
  startColor : SDL.SDL_Color;
  endColor : SDL.SDL_Color
}.

Record GlowLine : Type := mkGlowLine {
  glowFrom : R * R;
  glowTo : R * R;
  glowThickness : R;
  glowColor : SDL.SDL_Color
}.

(** What [render] computes and passes on to the draw calls. *)
Record Drawing : Type := mkDrawing {
  springColor : SDL.SDL_Color;
  dynamicRadius : R;
  springPoints : list (R * R);
  dynamicWireThickness : R;
  gradientLines : list GradientLine;
  glowLines : list GlowLine;
  anchorRect : SDL.SDL_Rect;
  massRect : SDL.SDL_Rect
}.

Fixpoint mapM {A B : Type} (f : A -> option B) (l : list A)
  : option (list B) :=
  match l with
  | [] => Some []
  | x :: l' => y <- f x ;; ys <- mapM f l' ;; Some (y :: ys)
  end.

(** The values [0, 1, ..., n] of a loop [for (i = 0; i <= n; ++i)]. *)
Definition upTo (n : Z) : list Z := map Z.of_nat (seq 0 (Z.to_nat (n + 1))).

(** The pairs [(p[i-1], p[i])] of a loop
    [for (i = 1; i < p.size(); ++i)]. *)
Fixpoint segments {A : Type} (p : list A) : list (A * A) :=
  match p with
  | [] => []
  | p0 :: rest =>
      match rest with
      | [] => []
      | p1 :: _ => (p0, p1) :: segments rest
      end
  end.

(** The body of the loop of lines 406-422: the [i]-th point of the coil. *)
Definition springPoint (cfg : RenderConfig) (state : SpringState)
    (angle len radius : R) (i : Z) : option (R * R) :=
  t <- IZR i // IZR (coils cfg * 20) ;;
  let coilAngle := t * IZR (coils cfg) * 2 * PI in
  let perpAngle := angle + PI / 2 in
  let x := anchorX state + t * len * cos angle
           + radius * sin coilAngle * cos perpAngle in
  let y := anchorY state + t * len * sin angle
           + radius * sin coilAngle * sin perpAngle in
  Some (x, y).

(** [render] (lines 343-499). *)
Definition render (cfg : RenderConfig) (state : SpringState)
  : option Drawing :=
  let dx := currentX state - anchorX state in
  let dy := currentY state - anchorY state in
  let len := hypot dx dy in
  let angle := atan2 dy dx in
  deformationFactor <-
    (if ltb len (restLength state)
     then (restLength state - len) // (restLength state - minLength state)
     else (len - restLength state) // (maxLength state - restLength state)) ;;
  let absoluteDeformation := deformationFactor in
  color <-
    (if ltb (Rabs deformationFactor) (maxDeformationThreshold cfg)
     then Some (neutralColor cfg)
     else if ltb len (restLength state)
     then interpolateColor (neutralColor cfg) (compressColor cfg)
            (fmin 1 (Rabs deformationFactor))
     else interpolateColor (neutralColor cfg) (stretchColor cfg)
            (fmin 1 (Rabs deformationFactor))) ;;
  let radius := springRadius cfg * (1 - absoluteDeformation * 0.3) in
  let radius := fmax radius (springRadius cfg * 0.3) in
  points <- mapM (springPoint cfg state angle len radius)
              (upTo (coils cfg * 20)) ;;
  let baseThickness := wireThickness cfg in
  let minThickness := 1 in
  let maxThickness := wireThickness cfg * 2 in
  let thickness :=
    if ltb len (restLength state)
    then baseThickness * (1 + absoluteDeformation * 0.5)
    else baseThickness * (1 - absoluteDeformation * 0.5) in
  let thickness := clamp thickness minThickness maxThickness in
  let deformedColor :=
    if ltb len (restLength state)
    then compressColor cfg else stretchColor cfg in
  gradient <-
    mapM (fun seg =>
            c0 <- interpolateColor (neutralColor cfg) deformedColor
                    float_0_3 ;;
            c1 <- interpolateColor (neutralColor cfg) deformedColor
                    float_0_7 ;;
            Some (mkGradientLine (fst seg) (snd seg) thickness c0 c1))
         (segments points) ;;
  let glow :=
    SDL.mkColor (SDL.r color) (SDL.g color) (SDL.b color) 30 in
  let glows :=
    map (fun seg => mkGlowLine (fst seg) (snd seg) thickness glow)
        (segments points) in
  Some (mkDrawing color radius points thickness gradient glows
          (SDL.mkRect (truncate (anchorX state) - 5)
                      (truncate (anchorY state) - 5) 10 10)
          (SDL.mkRect (truncate (currentX state) - 5)
                      (truncate (currentY state) - 5) 10 10)).

(** ** [SpringSimulation] *)

(** [SDL_BUTTON_LEFT] of SDL_mouse.h. *)
Definition SDL_BUTTON_LEFT : Z := 1.

(** The events [handleEvent] tells apart, with the fields it reads. *)
Inductive SDL_Event : Type :=
| SDL_QUIT
| SDL_MOUSEBUTTONDOWN (button x y : Z)
| SDL_MOUSEBUTTONUP (button x y : Z)
| SDL_MOUSEMOTION (x y : Z)
| SDL_OTHER_EVENT.

(** The members of [SpringSimulation] that are not SDL handles (lines
    504-509); [physics] holds only its [state]. *)
Record SpringSimulation : Type := mkSpringSimulation {
  physics : SpringState;
  running : bool;
  isDragging : bool
}.

(** The constructor (line 512). *)
Definition newSimulation : SpringSimulation :=
  mkSpringSimulation initial true false.

(** [handleEvent] (lines 564-589). *)
Definition handleEvent (event : SDL_Event) (sim : SpringSimulation)
  : SpringSimulation :=
  match event with
  | SDL_QUIT =>
      mkSpringSimulation (physics sim) false (isDragging sim)
  | SDL_MOUSEBUTTONDOWN button mouseX mouseY =>
      if (button =? SDL_BUTTON_LEFT)%Z then
        let massX := truncate (currentX (physics sim)) in
        let massY := truncate (currentY (physics sim)) in
        if ltb (hypot (IZR (mouseX - massX)) (IZR (mouseY - massY))) 10
        then mkSpringSimulation
               (dragTo (IZR mouseX) (IZR mouseY) (physics sim))
               (running sim) true
        else sim
      else sim
  | SDL_MOUSEBUTTONUP button _ _ =>
      if (button =? SDL_BUTTON_LEFT)%Z && isDragging sim
      then mkSpringSimulation (release (physics sim)) (running sim) false
      else sim
  | SDL_MOUSEMOTION x y =>
      if isDragging sim
      then mkSpringSimulation (dragTo (IZR x) (IZR y) (physics sim))
             (running sim) (isDragging sim)
      else sim
  | SDL_OTHER_EVENT => sim
  end.

(** The state of the loop of [run] (lines 536-562): the simulation and the
    local [lastTime]. *)
Record LoopState : Type := mkLoopState {
  simulation : SpringSimulation;
  lastTime : Z
}.

(** One pass through the body of [while (running)]: the queued events, then
    [update] with the time elapsed on the [Uint64] millisecond clock.  The
    [render] call and the delay that follow change no state. *)
Definition frame (events : list SDL_Event) (currentTime : Z) (st : LoopState)
  : option LoopState :=
  let sim := fold_left (fun s e => handleEvent e s) events (simulation st) in
  let deltaTime := IZR ((currentTime - lastTime st) mod 2 ^ 64) / 1000 in
  p <- update deltaTime (physics sim) ;;
  Some (mkLoopState (mkSpringSimulation p (running sim) (isDragging sim))
          currentTime).

(** [run], given the events and the clock value of each pass. *)
Fixpoint runLoop (frames : list (list SDL_Event * Z)) (st : LoopState)
  : option LoopState :=
  match frames with
  | [] => Some st
  | (events, currentTime) :: rest =>
      if running (simulation st)
      then st' <- frame events currentTime st ;; runLoop rest st'
      else Some st
  end.

(** The loop states [run] passes through, [run] having read the clock value
    [t0] before the loop. *)
Inductive loopReachable : LoopState -> Prop :=
| loopReachable_start t0 :
    loopReachable (mkLoopState newSimulation t0)
| loopReachable_frame events currentTime st st' :
    loopReachable st -> running (simulation st) = true ->
    frame events currentTime st = Some st' -> loopReachable st'.

(** ** More vocabulary *)



(** The deformation factor that [render] computes (lines 363-371), with the
    division taken for granted. *)
Definition deformation (s : SpringState) : R :=
  if ltb (springLength s) (restLength s)
  then (restLength s - springLength s) / (restLength s - minLength s)
  else (springLength s - restLength s) / (maxLength s - restLength s).


(** The pixel [(px, py)] lies in the rectangle. *)
Definition inRect (rect : SDL.SDL_Rect) (px py : Z) : Prop :=
  (SDL.x rect <= px < SDL.x rect + SDL.w rect /\
   SDL.y rect <= py < SDL.y rect + SDL.h rect)%Z.

(** * Proofs *)

(** ** Comparisons *)

Lemma ltb_true a b : ltb a b = true <-> a < b.
Proof. unfold ltb; destruct (Rlt_dec a b); split; intros; try easy. Qed.

Lemma ltb_false a b : ltb a b = false <-> b <= a.
Proof.
  unfold ltb; destruct (Rlt_dec a b); split; intros; try easy; lra.
Qed.

Lemma leb_true a b : leb a b = true <-> a <= b.
Proof. unfold leb; destruct (Rle_dec a b); split; intros; try easy. Qed.

Lemma leb_false a b : leb a b = false <-> b < a.
Proof.
  unfold leb; destruct (Rle_dec a b); split; intros; try easy; lra.
Qed.

Lemma fdiv_some a b : b <> 0 -> a // b = Some (a / b).
Proof. intros H; unfold fdiv; destruct (Req_dec_T b 0); [contradiction | reflexivity]. Qed.

Lemma fdiv_zero a : a // 0 = None.
Proof. unfold fdiv; destruct (Req_dec_T 0 0); [reflexivity | contradiction]. Qed.

(** ** [hypot] and [atan2] *)

Lemma hypot_sqr dx dy : hypot dx dy * hypot dx dy = dx * dx + dy * dy.
Proof. unfold hypot; apply sqrt_sqrt; nra. Qed.

Lemma hypot_zero : hypot 0 0 = 0.
Proof. unfold hypot; replace (0 * 0 + 0 * 0) with 0 by lra; apply sqrt_0. Qed.

Lemma hypot_vertical dy : 0 <= dy -> hypot 0 dy = dy.
Proof. intros H; unfold hypot; apply sqrt_lem_1; nra. Qed.

(** A point at polar coordinates [(r, a)] lies at distance [r]. *)
Lemma hypot_polar r a : 0 <= r -> hypot (r * cos a) (r * sin a) = r.
Proof.
  intros Hr; unfold hypot; apply sqrt_lem_1; try nra.
  pose proof (sin2_cos2 a) as H; unfold Rsqr in H; nra.
Qed.

Lemma atan_hyp t :
  0 < sqrt (1 + Rsqr t) /\
  sqrt (1 + Rsqr t) * sqrt (1 + Rsqr t) = 1 + t * t.
Proof.
  unfold Rsqr; split.
  - apply sqrt_lt_R0; nra.
  - apply sqrt_sqrt; nra.
Qed.

Lemma hypot_scaled x t h :
  0 < h -> h * h = 1 + t * t -> hypot x (t * x) = Rabs x * h.
Proof.
  intros Hh Hh2; unfold hypot; apply sqrt_lem_1.
  - nra.
  - pose proof (Rabs_pos x); nra.
  - replace (Rabs x * h * (Rabs x * h)) with ((Rabs x * Rabs x) * (h * h)) by ring.
    replace (Rabs x * Rabs x) with (x * x).
    + rewrite Hh2; ring.
    + unfold Rabs; destruct (Rcase_abs x); ring.
Qed.

(** [atan2 dy dx] is the angle of the vector [(dx, dy)]. *)
Lemma atan2_polar dy dx :
  cos (atan2 dy dx) * hypot dx dy = dx /\
  sin (atan2 dy dx) * hypot dx dy = dy.
Proof.
  unfold atan2.
  destruct (Rlt_dec 0 dx) as [Hpos | Hnpos];
    [| destruct (Rlt_dec dx 0) as [Hneg | Hnneg]].
  - destruct (atan_hyp (dy / dx)) as [Hh Hh2].
    replace (hypot dx dy) with (hypot dx (dy / dx * dx))
      by (f_equal; field; lra).
    rewrite (hypot_scaled dx (dy / dx) _ Hh Hh2).
    rewrite cos_atan, sin_atan, Rabs_pos_eq by lra.
    split; field; lra.
  - destruct (atan_hyp (dy / dx)) as [Hh Hh2].
    replace (hypot dx dy) with (hypot dx (dy / dx * dx))
      by (f_equal; field; lra).
    rewrite (hypot_scaled dx (dy / dx) _ Hh Hh2).
    rewrite Rabs_left by lra.
    destruct (Rle_dec 0 dy).
    + rewrite neg_cos, neg_sin, cos_atan, sin_atan. split; field; lra.
    + rewrite cos_minus, sin_minus, cos_PI, sin_PI, cos_atan, sin_atan.
      split; field; lra.
  - assert (dx = 0) by lra; subst dx.
    destruct (Rlt_dec 0 dy); [| destruct (Rlt_dec dy 0)].
    + rewrite cos_PI2, sin_PI2, hypot_vertical by lra. lra.
    + rewrite cos_neg, sin_neg, cos_PI2, sin_PI2.
      replace (hypot 0 dy) with (hypot 0 (- dy))
        by (unfold hypot; f_equal; ring).
      rewrite hypot_vertical by lra. lra.
    + assert (dy = 0) by lra; subst dy.
      rewrite hypot_zero. lra.
Qed.

Lemma hypot_clamped ax ay r a :
  0 <= r -> hypot (ax + r * cos a - ax) (ay + r * sin a - ay) = r.
Proof.
  intros Hr.
  replace (ax + r * cos a - ax) with (r * cos a) by ring.
  replace (ay + r * sin a - ay) with (r * sin a) by ring.
  now apply hypot_polar.
Qed.

(** ** Invariants of the engine *)

Lemma sameParams_refl s : sameParams s s.
Proof. repeat split. Qed.

Lemma sameParams_trans s1 s2 s3 :
  sameParams s1 s2 -> sameParams s2 s3 -> sameParams s1 s3.
Proof.
  unfold sameParams; intros H1 H2.
  decompose [and] H1; decompose [and] H2; repeat split; congruence.
Qed.

(** *** [release] *)

Lemma release_params s : sameParams s (release s).
Proof. repeat split. Qed.

Lemma release_inv s : Inv s -> Inv (release s).
Proof.
  intros [Hb He Hs Hl Hp]; split; auto; unfold dragSynced; simpl; discriminate.
Qed.

(** *** [dragTo] *)

(** The four paths through [dragTo]. *)
Lemma dragTo_follow mx my s :
  minLength s <= pointerLength mx my s <= maxLength s ->
  dragTo mx my s =
  set_isLimitReached false
    (set_velocity 0 0
       (set_lastDrag mx my (set_current mx my (set_isDragged true s)))).
Proof.
  intros [Hlo Hhi]; unfold dragTo, geb.
  apply leb_true in Hlo, Hhi. unfold pointerLength in *.
  now rewrite Hlo, Hhi.
Qed.

Lemma dragTo_pin_min mx my s :
  isLimitReached s = false ->
  pointerLength mx my s < minLength s ->
  dragTo mx my s =
  let x := anchorX s + minLength s * cos (pointerAngle mx my s) in
  let y := anchorY s + minLength s * sin (pointerAngle mx my s) in
  set_isLimitReached true
    (set_lastDrag x y (set_current x y (set_isDragged true s))).
Proof.
  intros Hlim Hlt; unfold dragTo, geb.
  pose proof Hlt as Hlt'. apply leb_false in Hlt. apply ltb_true in Hlt'.
  unfold pointerLength, pointerAngle in *.
  rewrite Hlt; simpl. now rewrite Hlim, Hlt'.
Qed.

Lemma dragTo_pin_max mx my s :
  isLimitReached s = false ->
  minLength s <= pointerLength mx my s ->
  maxLength s < pointerLength mx my s ->
  dragTo mx my s =
  let x := anchorX s + maxLength s * cos (pointerAngle mx my s) in
  let y := anchorY s + maxLength s * sin (pointerAngle mx my s) in
  set_isLimitReached true
    (set_lastDrag x y (set_current x y (set_isDragged true s))).
Proof.
  intros Hlim Hlo Hgt; unfold dragTo, geb, gtb.
  pose proof Hgt as Hgt'. apply leb_false in Hgt. apply ltb_true in Hgt'.
  pose proof Hlo as Hlo'. apply leb_true in Hlo. apply ltb_false in Hlo'.
  unfold pointerLength, pointerAngle in *.
  rewrite Hlo, Hgt; simpl. now rewrite Hlim, Hlo', Hgt'.
Qed.

Lemma dragTo_stuck mx my s :
  isLimitReached s = true ->
  pointerLength mx my s < minLength s \/ maxLength s < pointerLength mx my s ->
  dragTo mx my s = set_isDragged true s.
Proof.
  intros Hlim Hout; unfold dragTo, geb.
  unfold pointerLength in *.
  assert (leb (minLength s) (hypot (mx - anchorX s) (my - anchorY s))
          && leb (hypot (mx - anchorX s) (my - anchorY s)) (maxLength s)
          = false) as ->.
  { apply andb_false_iff. destruct Hout as [H | H]; apply leb_false in H; auto. }
  simpl. now rewrite Hlim.
Qed.

Lemma pointer_cases mx my s :
  minLength s <= pointerLength mx my s <= maxLength s \/
  pointerLength mx my s < minLength s \/
  (minLength s <= pointerLength mx my s /\
   maxLength s < pointerLength mx my s).
Proof. lra. Qed.

Lemma dragTo_params mx my s : sameParams s (dragTo mx my s).
Proof.
  destruct (isLimitReached s) eqn:Hlim;
    destruct (pointer_cases mx my s) as [H | [H | [H1 H2]]].
  all: first [ rewrite dragTo_follow by assumption
             | rewrite dragTo_stuck by auto
             | rewrite dragTo_pin_min by assumption
             | rewrite dragTo_pin_max by assumption ].
  all: repeat split.
Qed.

Lemma dragTo_isDragged mx my s : isDragged (dragTo mx my s) = true.
Proof.
  destruct (isLimitReached s) eqn:Hlim;
    destruct (pointer_cases mx my s) as [H | [H | [H1 H2]]].
  all: first [ rewrite dragTo_follow by assumption
             | rewrite dragTo_stuck by auto
             | rewrite dragTo_pin_min by assumption
             | rewrite dragTo_pin_max by assumption ].
  all: reflexivity.
Qed.

Lemma dragTo_inv mx my s : Inv s -> Inv (dragTo mx my s).
Proof.
  intros [Hb He Hs Hl Hp].
  destruct (isLimitReached s) eqn:Hlim;
    destruct (pointer_cases mx my s) as [H | [H | [H1 H2]]].
  all: first [ rewrite dragTo_follow by assumption
             | rewrite dragTo_stuck by auto
             | rewrite dragTo_pin_min by assumption
             | rewrite dragTo_pin_max by assumption ].
  all: split; unfold inEnvelope, springLength, dragSynced, noPending in *;
    simpl; rewrite ?hypot_clamped by lra; auto; try lra; try discriminate.
Qed.

(** *** [update], dragged branch *)

Lemma sampleDrag_some dt s :
  dt <> 0 ->
  sampleDrag dt s =
  Some (set_lastDrag (currentX s) (currentY s)
          (set_initialReleaseVelocity
             ((currentX s - lastDragX s) / dt)
             ((currentY s - lastDragY s) / dt) s)).
Proof.
  intros Hdt; unfold sampleDrag. now rewrite !fdiv_some by assumption.
Qed.

Lemma sampleDrag_zero s : sampleDrag 0 s = None.
Proof. unfold sampleDrag. now rewrite fdiv_zero. Qed.

Lemma sampleDrag_inv dt s s' :
  sampleDrag dt s = Some s' ->
  dt <> 0 /\
  s' = set_lastDrag (currentX s) (currentY s)
         (set_initialReleaseVelocity
            ((currentX s - lastDragX s) / dt)
            ((currentY s - lastDragY s) / dt) s).
Proof.
  intros H. destruct (Req_dec_T dt 0) as [-> | Hdt].
  - now rewrite sampleDrag_zero in H.
  - rewrite sampleDrag_some in H by assumption. split; congruence.
Qed.

(** *** [update], free branch *)

Lemma Rabs_gtb_false x : gtb (Rabs x) 0 = false -> x = 0.
Proof.
  unfold gtb; intros H; apply ltb_false in H.
  pose proof (Rabs_pos x). destruct (Req_dec_T x 0) as [| Hx]; [assumption |].
  apply Rabs_pos_lt in Hx. lra.
Qed.

Lemma Rabs_gtb_zero : gtb (Rabs 0) 0 = false.
Proof. unfold gtb; apply ltb_false; rewrite Rabs_R0; lra. Qed.

Lemma Rabs_gtb_true x : x <> 0 -> gtb (Rabs x) 0 = true.
Proof. intros H; unfold gtb; apply ltb_true; now apply Rabs_pos_lt. Qed.

(** Without a pending release velocity the handoff does nothing. *)
Lemma releaseHandoff_idle s : noPending s -> releaseHandoff s = s.
Proof.
  intros [Hx Hy]; unfold releaseHandoff.
  now rewrite Hx, Hy, Rabs_gtb_zero.
Qed.

(** With one, it becomes the live velocity and is cleared. *)
Lemma releaseHandoff_fires s :
  initialReleaseVelocityX s <> 0 \/ initialReleaseVelocityY s <> 0 ->
  releaseHandoff s =
  set_initialReleaseVelocity 0 0
    (set_velocity (initialReleaseVelocityX s) (initialReleaseVelocityY s) s).
Proof.
  intros H; unfold releaseHandoff.
  assert (gtb (Rabs (initialReleaseVelocityX s)) 0
          || gtb (Rabs (initialReleaseVelocityY s)) 0 = true) as ->;
    [| reflexivity].
  apply orb_true_iff.
  destruct H as [H | H]; apply Rabs_gtb_true in H; auto.
Qed.

Lemma releaseHandoff_cases s :
  releaseHandoff s = s \/
  releaseHandoff s =
  set_initialReleaseVelocity 0 0
    (set_velocity (initialReleaseVelocityX s) (initialReleaseVelocityY s) s).
Proof.
  unfold releaseHandoff.
  destruct (gtb (Rabs (initialReleaseVelocityX s)) 0
            || gtb (Rabs (initialReleaseVelocityY s)) 0); auto.
Qed.

Lemma releaseHandoff_noPending s : noPending (releaseHandoff s).
Proof.
  unfold releaseHandoff, noPending.
  destruct (gtb (Rabs (initialReleaseVelocityX s)) 0) eqn:Hx;
    destruct (gtb (Rabs (initialReleaseVelocityY s)) 0) eqn:Hy; simpl; auto.
  split; now apply Rabs_gtb_false.
Qed.

Lemma applyForces_some dt dx dy len s :
  len <> 0 -> mass s <> 0 ->
  applyForces dt dx dy len s =
  let vx := velocityX s + accelX dx len s * dt in
  let vy := velocityY s + accelY dy len s * dt in
  Some (set_current (currentX s + vx * dt) (currentY s + vy * dt)
          (set_velocity vx vy s)).
Proof.
  intros Hlen Hm; unfold applyForces.
  rewrite !(fdiv_some _ len) by assumption. simpl.
  rewrite !(fdiv_some _ (mass s)) by assumption. reflexivity.
Qed.

Lemma applyForces_none dt dx dy len s :
  applyForces dt dx dy len s = None <-> len = 0 \/ mass s = 0.
Proof.
  split.
  - intros H. destruct (Req_dec_T len 0) as [| Hlen]; [now left |].
    destruct (Req_dec_T (mass s) 0) as [| Hm]; [now right |].
    rewrite applyForces_some in H by assumption. discriminate.
  - intros [-> | Hm]; unfold applyForces.
    + now rewrite fdiv_zero.
    + destruct (dx // len); simpl; [| reflexivity].
      destruct (dy // len); simpl; [| reflexivity].
      now rewrite Hm, fdiv_zero.
Qed.

Lemma applyForces_inv dt dx dy len s m :
  applyForces dt dx dy len s = Some m ->
  len <> 0 /\ mass s <> 0 /\
  m = set_current
        (currentX s + (velocityX s + accelX dx len s * dt) * dt)
        (currentY s + (velocityY s + accelY dy len s * dt) * dt)
        (set_velocity (velocityX s + accelX dx len s * dt)
                      (velocityY s + accelY dy len s * dt) s).
Proof.
  intros H.
  destruct (Req_dec_T len 0) as [Hlen | Hlen].
  { assert (applyForces dt dx dy len s = None) as E
      by (apply applyForces_none; now left). congruence. }
  destruct (Req_dec_T (mass s) 0) as [Hm | Hm].
  { assert (applyForces dt dx dy len s = None) as E
      by (apply applyForces_none; now right). congruence. }
  rewrite applyForces_some in H by assumption. simpl in H.
  repeat split; congruence.
Qed.

(** The three paths through the length constraints. *)
Lemma enforceLimits_min s :
  springLength s < minLength s ->
  enforceLimits s =
  let angle := atan2 (currentY s - anchorY s) (currentX s - anchorX s) in
  set_velocity (velocityX s * -0.5) (velocityY s * -0.5)
    (set_current (anchorX s + minLength s * cos angle)
                 (anchorY s + minLength s * sin angle) s).
Proof.
  intros H; apply ltb_true in H; unfold enforceLimits, springLength in *.
  now rewrite H.
Qed.

Lemma enforceLimits_max s :
  minLength s <= springLength s ->
  maxLength s < springLength s ->
  enforceLimits s =
  let angle := atan2 (currentY s - anchorY s) (currentX s - anchorX s) in
  set_velocity (velocityX s * -0.5) (velocityY s * -0.5)
    (set_current (anchorX s + maxLength s * cos angle)
                 (anchorY s + maxLength s * sin angle) s).
Proof.
  intros H1 H2; apply ltb_false in H1; apply ltb_true in H2.
  unfold enforceLimits, springLength, gtb in *.
  now rewrite H1, H2.
Qed.

Lemma enforceLimits_inside s :
  minLength s <= springLength s <= maxLength s ->
  enforceLimits s = s.
Proof.
  intros [H1 H2]; apply ltb_false in H1, H2.
  unfold enforceLimits, springLength, gtb in *.
  now rewrite H1, H2.
Qed.

Lemma length_cases s :
  springLength s < minLength s \/
  (minLength s <= springLength s /\ maxLength s < springLength s) \/
  minLength s <= springLength s <= maxLength s.
Proof. lra. Qed.

Ltac enforce_cases s :=
  destruct (length_cases s) as [?Hlen | [[?Hlen1 ?Hlen2] | ?Hlen]];
  [ rewrite (enforceLimits_min s) by assumption
  | rewrite (enforceLimits_max s) by assumption
  | rewrite (enforceLimits_inside s) by assumption ].

Lemma enforceLimits_envelope s :
  0 <= minLength s <= maxLength s -> inEnvelope (enforceLimits s).
Proof.
  intros Hb. enforce_cases s; unfold inEnvelope, springLength in *; simpl;
    rewrite ?hypot_clamped by lra; lra.
Qed.

Lemma enforceLimits_frame s :
  let s' := enforceLimits s in
  sameParams s s' /\
  isDragged s' = isDragged s /\ isLimitReached s' = isLimitReached s /\
  lastDragX s' = lastDragX s /\ lastDragY s' = lastDragY s /\
  initialReleaseVelocityX s' = initialReleaseVelocityX s /\
  initialReleaseVelocityY s' = initialReleaseVelocityY s.
Proof. enforce_cases s; simpl; repeat split. Qed.

Lemma releaseHandoff_frame s :
  let s' := releaseHandoff s in
  sameParams s s' /\
  isDragged s' = isDragged s /\ isLimitReached s' = isLimitReached s /\
  lastDragX s' = lastDragX s /\ lastDragY s' = lastDragY s /\
  currentX s' = currentX s /\ currentY s' = currentY s.
Proof.
  destruct (releaseHandoff_cases s) as [-> | ->]; simpl; repeat split.
Qed.

Lemma update_dragged dt s :
  isDragged s = true -> update dt s = sampleDrag dt s.
Proof. intros H; unfold update; now rewrite H. Qed.

Lemma update_free dt s :
  isDragged s = false ->
  update dt s = (m <- freeStep dt s ;; Some (enforceLimits m)).
Proof. intros H; unfold update; now rewrite H. Qed.

Lemma update_free_inv dt s s' :
  isDragged s = false -> update dt s = Some s' ->
  exists m, freeStep dt s = Some m /\ s' = enforceLimits m.
Proof.
  intros Hd H; rewrite update_free in H by assumption.
  destruct (freeStep dt s) as [m |]; simpl in H; [| discriminate].
  exists m; split; congruence.
Qed.

Lemma freeStep_frame dt s m :
  freeStep dt s = Some m ->
  sameParams s m /\
  isDragged m = isDragged s /\ isLimitReached m = isLimitReached s /\
  lastDragX m = lastDragX s /\ lastDragY m = lastDragY s /\
  noPending m.
Proof.
  unfold freeStep; intros H.
  apply applyForces_inv in H as (_ & _ & ->).
  pose proof (releaseHandoff_noPending s) as [Hx Hy].
  destruct (releaseHandoff_frame s) as (Hp & ? & ? & ? & ? & _).
  unfold sameParams, noPending in *; simpl. tauto.
Qed.

(** No call assigns the topology and material fields. *)
Lemma update_params dt s s' : update dt s = Some s' -> sameParams s s'.
Proof.
  intros H. destruct (isDragged s) eqn:Hd.
  - rewrite update_dragged in H by assumption.
    apply sampleDrag_inv in H as [_ ->]. repeat split.
  - apply update_free_inv in H as (m & Hm & ->); [| assumption].
    apply freeStep_frame in Hm as [Hp _].
    eapply sameParams_trans; [exact Hp |].
    apply (enforceLimits_frame m).
Qed.

Lemma exec_params c s s' : exec c s = Some s' -> sameParams s s'.
Proof.
  destruct c; simpl; intros H.
  - now apply update_params in H.
  - injection H as <-. apply dragTo_params.
  - injection H as <-. apply release_params.
Qed.

Lemma update_flags dt s s' :
  update dt s = Some s' ->
  isDragged s' = isDragged s /\ isLimitReached s' = isLimitReached s.
Proof.
  intros H. destruct (isDragged s) eqn:Hd.
  - rewrite update_dragged in H by assumption.
    apply sampleDrag_inv in H as [_ ->]. simpl; auto.
  - apply update_free_inv in H as (m & Hm & ->); [| assumption].
    apply freeStep_frame in Hm as (_ & H1 & H2 & _).
    destruct (enforceLimits_frame m) as (_ & H3 & H4 & _).
    split; congruence.
Qed.

Lemma update_inv dt s s' : Inv s -> update dt s = Some s' -> Inv s'.
Proof.
  intros [Hb He Hs Hl Hp] H. destruct (isDragged s) eqn:Hd.
  - rewrite update_dragged in H by assumption.
    apply sampleDrag_inv in H as [Hdt ->].
    destruct (Hs Hd) as [Hx Hy].
    split; unfold inEnvelope, springLength, dragSynced, noPending in *;
      simpl; auto.
    rewrite Hx, Hy. split; field; assumption.
  - pose proof H as Hf. apply update_flags in Hf as [Hf1 Hf2].
    pose proof H as Hpar. apply update_params in Hpar.
    apply update_free_inv in H as (m & Hm & ->); [| assumption].
    apply freeStep_frame in Hm as (Hpm & _ & _ & _ & _ & Hnp).
    assert (0 <= minLength m <= maxLength m) as Hbm.
    { destruct Hpm as (_ & _ & _ & _ & _ & _ & _ & -> & ->). exact Hb. }
    split.
    + destruct (enforceLimits_frame m)
        as ((_ & _ & _ & _ & _ & _ & _ & -> & ->) & _). exact Hbm.
    + now apply enforceLimits_envelope.
    + unfold dragSynced. rewrite Hf1, Hd. discriminate.
    + rewrite Hf1, Hf2, Hd. exact Hl.
    + destruct (enforceLimits_frame m) as (_ & _ & _ & _ & _ & Hx & Hy).
      unfold noPending in *. rewrite Hx, Hy. exact Hnp.
Qed.

Lemma initial_inv : Inv initial.
Proof.
  split; unfold inEnvelope, springLength, dragSynced, noPending,
    initial, SCREEN_WIDTH; simpl; auto; try lra; try discriminate.
  replace (800 / 2 - 800 / 2) with 0 by lra.
  replace (300 - 100) with 200 by lra.
  rewrite hypot_vertical by lra. lra.
Qed.

Lemma exec_inv c s s' : Inv s -> exec c s = Some s' -> Inv s'.
Proof.
  destruct c; simpl; intros HI H.
  - eapply update_inv; eassumption.
  - injection H as <-. now apply dragTo_inv.
  - injection H as <-. now apply release_inv.
Qed.

Lemma reachable_inv s : reachable s -> Inv s.
Proof.
  induction 1 as [| c s s' _ IH Hex].
  - exact initial_inv.
  - eapply exec_inv; eassumption.
Qed.

(** The topology and material fields of a reachable state are the
    constructor's. *)
Lemma reachable_params s : reachable s -> sameParams initial s.
Proof.
  induction 1 as [| c s s' _ IH Hex].
  - apply sameParams_refl.
  - eapply sameParams_trans; [exact IH |]. eapply exec_params; eassumption.
Qed.

Lemma reachable_bounds s : reachable s -> 0 <= minLength s <= maxLength s.
Proof. intros Hr. apply (inv_bounds s (reachable_inv s Hr)). Qed.

(** In a reachable state no release velocity is pending, so the handoff of
    lines 89-98 never fires. *)
Lemma handoff_never_fires s : reachable s -> releaseHandoff s = s.
Proof.
  intros Hr. apply releaseHandoff_idle, (inv_pending s (reachable_inv s Hr)).
Qed.

(** The handoff itself does hand a pending release velocity over. *)
Lemma handoff_sets_velocity s :
  initialReleaseVelocityX s <> 0 \/ initialReleaseVelocityY s <> 0 ->
  velocityX (releaseHandoff s) = initialReleaseVelocityX s /\
  velocityY (releaseHandoff s) = initialReleaseVelocityY s /\
  noPending (releaseHandoff s).
Proof.
  intros H. rewrite releaseHandoff_fires by assumption.
  repeat split.
Qed.

Lemma run_reachable cs s s' : reachable s -> run cs s = Some s' -> reachable s'.
Proof.
  revert s; induction cs as [| c cs IH]; simpl; intros s Hr H.
  - now injection H as <-.
  - destruct (exec c s) as [s1 |] eqn:He; simpl in H; [| discriminate].
    eapply IH; [| exact H]. eapply reachable_step; eassumption.
Qed.

(** ** The first step from the constructed state *)

Lemma initial_geometry :
  currentX initial - anchorX initial = 0 /\
  currentY initial - anchorY initial = 200 /\
  springLength initial = 200.
Proof.
  unfold springLength; simpl; unfold SCREEN_WIDTH.
  replace (800 / 2 - 800 / 2) with 0 by lra.
  replace (300 - 100) with 200 by lra.
  rewrite hypot_vertical by lra. lra.
Qed.

(** At rest length the spring force vanishes: the first free step from the
    constructed state is pure gravity. *)
Lemma freeStep_initial dt :
  freeStep dt initial =
  Some (set_current 400 (300 + 9.8 * dt * dt)
          (set_velocity 0 (9.8 * dt) initial)).
Proof.
  unfold freeStep.
  rewrite releaseHandoff_idle by (split; reflexivity).
  destruct initial_geometry as (Hx & Hy & Hl).
  unfold springLength in Hl. rewrite Hl, Hx, Hy.
  rewrite applyForces_some by (simpl; lra).
  unfold accelX, accelY; simpl; unfold SCREEN_WIDTH.
  unfold set_current, set_velocity; simpl.
  f_equal. f_equal; field.
Qed.

Lemma update_initial dt :
  9.8 * dt * dt <= 250 ->
  update dt initial =
  Some (set_current 400 (300 + 9.8 * dt * dt)
          (set_velocity 0 (9.8 * dt) initial)).
Proof.
  intros Hdt. rewrite update_free by reflexivity.
  rewrite freeStep_initial; simpl. f_equal.
  apply enforceLimits_inside.
  unfold springLength; simpl; unfold SCREEN_WIDTH.
  replace (400 - 800 / 2) with 0 by lra.
  rewrite hypot_vertical by nra.
  nra.
Qed.

(** On a reachable state [update] completes unless it is a dragged-mode
    call with [deltaTime = 0]. *)
Lemma update_total s dt :
  reachable s -> isDragged s = false \/ dt <> 0 ->
  exists s', update dt s = Some s'.
Proof.
  intros Hr Hok.
  pose proof (reachable_inv s Hr) as [Hb He _ _ _].
  pose proof (reachable_params s Hr)
    as (_ & _ & _ & _ & _ & _ & Hm & Hmin & _).
  simpl in Hm, Hmin.
  destruct (isDragged s) eqn:Hd.
  - destruct Hok as [Hok | Hdt]; [discriminate |].
    rewrite update_dragged, sampleDrag_some by assumption. eauto.
  - rewrite update_free by assumption. unfold freeStep.
    rewrite applyForces_some; simpl; eauto.
    + unfold inEnvelope, springLength in He. lra.
    + destruct (releaseHandoff_frame s)
        as ((_ & _ & _ & _ & _ & _ & -> & _) & _). lra.
Qed.

(** * The claims *)

(** The length envelope in real arithmetic.  In every state reachable from
    the constructed one through engine calls, whatever state an [update] or
    a [dragTo] call returns has its anchor-to-mass distance between
    [minLength] and [maxLength], and [update] does return on such a state,
    except for a dragged-mode call with [deltaTime = 0].  This is the
    invariant of the exact model; it is not a statement about the program's
    doubles, where a clamped or pinned mass can lie a unit in the last place
    outside the envelope. *)
Theorem envelope_after_update_or_dragTo (s : SpringState) :
  reachable s ->
  (forall dt s', update dt s = Some s' ->
     minLength s' <= springLength s' <= maxLength s') /\
  (forall mx my,
     minLength (dragTo mx my s) <= springLength (dragTo mx my s)
       <= maxLength (dragTo mx my s)) /\
  (forall dt, isDragged s = false \/ dt <> 0 ->
     exists s', update dt s = Some s').
Proof.
  intros Hr. pose proof (reachable_inv s Hr) as HI. repeat split.
  - apply (update_inv dt s s' HI H).
  - apply (update_inv dt s s' HI H).
  - apply (dragTo_inv mx my s HI).
  - apply (dragTo_inv mx my s HI).
  - intros dt Hok. now apply update_total.
Qed.

Lemma envelope_after_update_or_dragTo_witness :
  reachable initial /\
  minLength (dragTo 400 300 initial)
    <= springLength (dragTo 400 300 initial)
    <= maxLength (dragTo 400 300 initial).
Proof.
  split.
  - exact reachable_initial.
  - exact (proj1 (proj2 (envelope_after_update_or_dragTo initial
                           reachable_initial)) 400 300).
Defined.

(** C10.  [release] is idempotent, and it assigns only the two flags
    [isDragged] and [isLimitReached], both to [false]. *)
Theorem release_idempotent (s : SpringState) :
  release (release s) = release s /\
  isDragged (release s) = false /\ isLimitReached (release s) = false /\
  sameParams s (release s) /\
  currentX (release s) = currentX s /\ currentY (release s) = currentY s /\
  velocityX (release s) = velocityX s /\ velocityY (release s) = velocityY s /\
  lastDragX (release s) = lastDragX s /\ lastDragY (release s) = lastDragY s /\
  initialReleaseVelocityX (release s) = initialReleaseVelocityX s /\
  initialReleaseVelocityY (release s) = initialReleaseVelocityY s.
Proof. repeat split. Qed.

(** C9.  The constructed state has anchor (400,100), rest length 200,
    minimum 100, maximum 450, mass 1, stiffness 100, damping 0.3, the mass at
    rest length straight below the anchor, no velocity and no pending
    release velocity; one [update 0.016] from it returns a state whose
    [currentY] is strictly larger, whose length is strictly above 200 and at
    most 450. *)
Theorem first_step_moves_down :
  (anchorX initial = 400 /\ anchorY initial = 100 /\
   restLength initial = 200 /\ minLength initial = 100 /\
   maxLength initial = 450 /\ mass initial = 1 /\
   stiffness initial = 100 /\ damping initial = 0.3 /\
   currentX initial = anchorX initial /\
   currentY initial = anchorY initial + restLength initial /\
   velocityX initial = 0 /\ velocityY initial = 0 /\
   initialReleaseVelocityX initial = 0 /\
   initialReleaseVelocityY initial = 0 /\
   isDragged initial = false) /\
  exists s', update 0.016 initial = Some s' /\
    currentY initial < currentY s' /\
    currentX s' = currentX initial /\
    200 < springLength s' /\ springLength s' <= 450.
Proof.
  split.
  - simpl; unfold SCREEN_WIDTH; repeat split; lra.
  - eexists; split; [apply update_initial; lra |].
    unfold springLength; simpl; unfold SCREEN_WIDTH.
    replace (400 - 800 / 2) with 0 by lra.
    rewrite hypot_vertical by lra.
    repeat split; lra.
Qed.

(** ** Concrete drag gestures *)

Lemma hypot_below_anchor y :
  100 <= y -> hypot (400 - SCREEN_WIDTH / 2) (y - 100) = y - 100.
Proof.
  intros Hy; unfold SCREEN_WIDTH.
  replace (400 - 800 / 2) with 0 by lra.
  apply hypot_vertical; lra.
Qed.

(** Normal forms of concrete states: the setters and the projections are
    unfolded, the arithmetic is left alone. *)
Ltac state_cbv :=
  cbv [release set_current set_velocity set_lastDrag
       set_initialReleaseVelocity set_isDragged set_isLimitReached
       anchorX anchorY currentX currentY restLength currentLength
       stiffness damping mass velocityX velocityY isDragged
       minLength maxLength isLimitReached lastDragX lastDragY
       initialReleaseVelocityX initialReleaseVelocityY
       initial grasped held letGo overshoot onAnchor flung
       pointerLength springLength accelX accelY bind].

Ltac state_eq := state_cbv; unfold SCREEN_WIDTH; f_equal; try field; try lra.

Lemma grasped_eq : dragTo 400 300 initial = grasped.
Proof.
  rewrite dragTo_follow.
  - state_eq.
  - state_cbv. rewrite hypot_below_anchor by lra. lra.
Qed.

Lemma grasped_reachable : reachable grasped.
Proof.
  apply (reachable_step (DragTo 400 300) initial); [constructor |].
  simpl. f_equal. exact grasped_eq.
Qed.

Lemma grasped_isDragged : isDragged grasped = true.
Proof. reflexivity. Qed.

(** A dragged-mode sample changes neither [grasped] nor [held]: the
    displacement it measures is zero. *)
Lemma update_grasped : update 1 grasped = Some grasped.
Proof.
  rewrite update_dragged by reflexivity.
  rewrite sampleDrag_some by lra. f_equal. state_eq.
Qed.

Lemma dragTo_held : dragTo 400 350 grasped = held.
Proof.
  rewrite dragTo_follow.
  - state_eq.
  - state_cbv. rewrite hypot_below_anchor by lra. lra.
Qed.

Lemma update_held : update 1 held = Some held.
Proof.
  rewrite update_dragged by reflexivity.
  rewrite sampleDrag_some by lra. f_equal. state_eq.
Qed.

Lemma release_held : release held = letGo.
Proof. state_eq. Qed.

Lemma run_dragByFifty : run dragByFifty initial = Some letGo.
Proof.
  unfold dragByFifty. cbn [run exec bind].
  rewrite grasped_eq, update_grasped. cbn [bind].
  rewrite dragTo_held, update_held. cbn [bind].
  now rewrite release_held.
Qed.

(** The free step from [letGo]: the spring is 50 longer than its rest
    length and pulls the mass up. *)
Lemma update_letGo :
  update 0.016 letGo =
  Some (set_current 400 (350 + -79.8432 * 0.016)
          (set_velocity 0 (-79.8432) letGo)).
Proof.
  rewrite update_free by reflexivity. unfold freeStep.
  rewrite releaseHandoff_idle by (split; reflexivity).
  replace (hypot (currentX letGo - anchorX letGo)
                 (currentY letGo - anchorY letGo)) with 250
    by (state_cbv; rewrite hypot_below_anchor; lra).
  rewrite applyForces_some by (state_cbv; lra).
  cbv zeta. cbn [bind]. f_equal.
  match goal with
  | |- enforceLimits ?m = ?t => assert (m = t) as ->
  end.
  { state_eq. }
  apply enforceLimits_inside.
  state_cbv.
  replace (350 + -79.8432 * 0.016 - 100) with (348.7225088 - 100) by lra.
  rewrite hypot_below_anchor by lra. lra.
Qed.

(** C2 (the code at the failing input).  After the gesture [dragByFifty],
    which moves the mass from (400,300) to (400,350) over one second sampled
    at [deltaTime = 1] and then releases it, no release velocity is pending:
    the handoff of the next [update] leaves the live velocity at (0,0), not
    at the displacement (0,50), and that [update] ends with the velocity the
    forces alone give, (0, -79.8432). *)
Theorem release_handoff_is_lost :
  exists s, run dragByFifty initial = Some s /\
    reachable s /\
    currentX s - currentX grasped = 0 /\
    currentY s - currentY grasped = 50 /\
    isDragged s = false /\
    initialReleaseVelocityX s = 0 /\ initialReleaseVelocityY s = 0 /\
    velocityX (releaseHandoff s) = 0 /\ velocityY (releaseHandoff s) = 0 /\
    exists s', update 0.016 s = Some s' /\
      velocityX s' = 0 /\ velocityY s' = -79.8432.
Proof.
  exists letGo. split; [exact run_dragByFifty |].
  split; [exact (run_reachable _ _ _ reachable_initial run_dragByFifty) |].
  rewrite releaseHandoff_idle by (split; reflexivity).
  repeat split; try (state_cbv; lra).
  eexists; split; [exact update_letGo |]. split; reflexivity.
Qed.

(** C3 (as amended).  In every reachable state with [isDragged = true] the
    last-drag position is the current position, so the displacement a
    dragged-mode [update] computes is zero; with [deltaTime <> 0] the call
    returns with the pending release velocity (0,0) and the mass not moved,
    and with [deltaTime = 0] it divides zero by zero. *)
Theorem dragged_sample_is_zero (s : SpringState) :
  reachable s -> isDragged s = true ->
  (lastDragX s = currentX s /\ lastDragY s = currentY s) /\
  (currentX s - lastDragX s = 0 /\ currentY s - lastDragY s = 0) /\
  (forall dt, dt <> 0 ->
     exists s', update dt s = Some s' /\
       initialReleaseVelocityX s' = 0 /\ initialReleaseVelocityY s' = 0 /\
       currentX s' = currentX s /\ currentY s' = currentY s) /\
  update 0 s = None.
Proof.
  intros Hr Hd.
  destruct (inv_synced s (reachable_inv s Hr) Hd) as [Hx Hy].
  repeat split; try assumption; try lra.
  - intros dt Hdt. rewrite update_dragged, sampleDrag_some by assumption.
    eexists; split; [reflexivity |]. simpl.
    rewrite Hx, Hy. repeat split; field; assumption.
  - rewrite update_dragged by assumption. apply sampleDrag_zero.
Qed.

Lemma dragged_sample_is_zero_witness :
  reachable grasped /\ isDragged grasped = true /\
  lastDragX grasped = currentX grasped /\
  lastDragY grasped = currentY grasped.
Proof.
  split; [exact grasped_reachable |].
  split; [exact grasped_isDragged |].
  exact (proj1 (dragged_sample_is_zero grasped grasped_reachable
                  grasped_isDragged)).
Defined.

(** C3 as stated fails for [deltaTime = 0]: in the reachable dragged state
    [grasped], [update 0] does not return a state with the pending release
    velocity (0,0). *)
Lemma dragged_sample_zero_deltaTime :
  reachable grasped /\ isDragged grasped = true /\
  ~ (exists s', update 0 grasped = Some s' /\
       initialReleaseVelocityX s' = 0 /\ initialReleaseVelocityY s' = 0).
Proof.
  split; [exact grasped_reachable |].
  split; [exact grasped_isDragged |].
  intros (s' & H & _).
  rewrite update_dragged, sampleDrag_zero in H by exact grasped_isDragged.
  discriminate.
Qed.

(** C4 (the code at the failing input).  One free step of a second from the
    constructed state gives the mass the velocity (0, 9.8); a [dragTo] whose
    pointer (400, 1000) lies beyond [maxLength] then starts a drag, pins the
    mass at the limit and leaves that velocity in place. *)
Theorem drag_beyond_limit_keeps_velocity :
  exists s1, update 1 initial = Some s1 /\
    reachable (dragTo 400 1000 s1) /\
    isDragged (dragTo 400 1000 s1) = true /\
    isLimitReached (dragTo 400 1000 s1) = true /\
    velocityX (dragTo 400 1000 s1) = 0 /\
    velocityY (dragTo 400 1000 s1) = 9.8.
Proof.
  eexists; split; [apply update_initial; lra |].
  split.
  { apply (reachable_step (DragTo 400 1000) _ _
             (reachable_step (Update 1) initial _ reachable_initial
                (update_initial 1 ltac:(lra)))).
    reflexivity. }
  rewrite dragTo_pin_max;
    try (state_cbv; rewrite hypot_below_anchor; lra);
    try reflexivity.
  cbv zeta. state_cbv. repeat split; lra.
Qed.

(** ** The bounce at a length limit *)




(** ** Division by the current length *)





(** ** [update] with [deltaTime = 0] *)

Lemma update_clears_pending dt s s' :
  isDragged s = false -> update dt s = Some s' -> noPending s'.
Proof.
  intros Hd H. apply update_free_inv in H as (m & Hm & ->); [| assumption].
  apply freeStep_frame in Hm as (_ & _ & _ & _ & _ & [Hx Hy]).
  destruct (enforceLimits_frame m) as (_ & _ & _ & _ & _ & Ex & Ey).
  split; congruence.
Qed.







(** ** Pinning at the limit *)





(** * More about the engine *)




(** X1.  In a reachable state [isLimitReached] is set only during a drag. *)
Theorem limit_only_while_dragged (s : SpringState) :
  reachable s -> isLimitReached s = true -> isDragged s = true.
Proof. intros Hr. apply (inv_limit s (reachable_inv s Hr)). Qed.

Lemma limit_only_while_dragged_witness :
  isDragged (dragTo 400 1000 initial) = true.
Proof.
  apply limit_only_while_dragged.
  - apply (reachable_step (DragTo 400 1000) initial);
      [exact reachable_initial | reflexivity].
  - rewrite dragTo_pin_max;
      try (state_cbv; rewrite hypot_below_anchor; lra); reflexivity.
Defined.



(** X3.  No sequence of engine calls changes the anchor, the rest, minimum
    and maximum lengths, the stiffness, the damping, the mass, or the stored
    field [currentLength], which therefore does not follow the length of the
    spring. *)
Theorem parameters_never_change (cs : list call) (s s' : SpringState) :
  run cs s = Some s' -> sameParams s s'.
Proof.
  revert s; induction cs as [| c cs IH]; simpl; intros s H.
  - injection H as <-. apply sameParams_refl.
  - destruct (exec c s) as [s1 |] eqn:He; simpl in H; [| discriminate].
    eapply sameParams_trans; [eapply exec_params; exact He | now apply IH].
Qed.

Lemma parameters_never_change_witness : sameParams initial letGo.
Proof.
  exact (parameters_never_change dragByFifty initial letGo run_dragByFifty).
Defined.

(** X4.  [dragTo] is idempotent: repeating a call with the same pointer
    changes nothing. *)
Theorem dragTo_idempotent (mx my : R) (s : SpringState) :
  dragTo mx my (dragTo mx my s) = dragTo mx my s.
Proof.
  destruct (isLimitReached s) eqn:Hlim;
    destruct (pointer_cases mx my s) as [H | [H | [H1 H2]]].
  - rewrite (dragTo_follow mx my s) by assumption.
    rewrite dragTo_follow by exact H. destruct s; reflexivity.
  - rewrite (dragTo_stuck mx my s) by auto.
    rewrite dragTo_stuck; [destruct s; reflexivity | exact Hlim | now left].
  - rewrite (dragTo_stuck mx my s) by auto.
    rewrite dragTo_stuck; [destruct s; reflexivity | exact Hlim | now right].
  - rewrite (dragTo_follow mx my s) by assumption.
    rewrite dragTo_follow by exact H. destruct s; reflexivity.
  - rewrite (dragTo_pin_min mx my s) by assumption. cbv zeta.
    rewrite dragTo_stuck; [destruct s; reflexivity | reflexivity | now left].
  - rewrite (dragTo_pin_max mx my s) by assumption. cbv zeta.
    rewrite dragTo_stuck; [destruct s; reflexivity | reflexivity | now right].
Qed.





Lemma accelX_on_axis len s : velocityX s = 0 -> accelX 0 len s = 0.
Proof.
  intros Hv. unfold accelX. rewrite Hv. unfold Rdiv. ring.
Qed.

(** X7.  A free mass straight above or below the anchor, without horizontal
    velocity (live or pending), stays on the vertical through the anchor and
    without horizontal velocity, with one exception: when the step lands
    exactly on the anchor, the minimum-length constraint puts the mass
    [minLength] to the right of it. *)
Theorem vertical_motion (dt : R) (s m : SpringState) :
  isDragged s = false ->
  currentX s = anchorX s -> velocityX s = 0 ->
  initialReleaseVelocityX s = 0 ->
  freeStep dt s = Some m ->
  update dt s = Some (enforceLimits m) /\
  currentX m = anchorX s /\
  velocityX (enforceLimits m) = 0 /\
  (currentY m <> anchorY s -> currentX (enforceLimits m) = anchorX s) /\
  (currentY m = anchorY s -> 0 < minLength s ->
   currentX (enforceLimits m) = anchorX s + minLength s).
Proof.
  intros Hd Hx Hvx Hpx Hm.
  assert (update dt s = Some (enforceLimits m)) as Hup
    by (rewrite update_free, Hm by assumption; reflexivity).
  split; [exact Hup |].
  pose proof (freeStep_frame dt s m Hm) as ((Hax & Hay & _ & _ & _ & _ & _ & Hmin & _) & _).
  unfold freeStep in Hm. apply applyForces_inv in Hm as (_ & _ & Hm).
  destruct (releaseHandoff_frame s) as (_ & _ & _ & _ & _ & Hcx & _).
  assert (velocityX (releaseHandoff s) = 0) as Hv0.
  { destruct (releaseHandoff_cases s) as [-> | ->]; simpl; assumption. }
  assert (velocityX m = 0 /\ currentX m = anchorX s) as [Hvm Hxm].
  { rewrite Hm; simpl. rewrite Hcx, Hx.
    replace (anchorX s - anchorX s) with 0 by ring.
    rewrite accelX_on_axis, Hv0 by assumption. split; ring. }
  split; [exact Hxm |].
  assert (currentX m - anchorX m = 0) as Hdx by (rewrite Hxm, Hax; ring).
  split; [| split].
  - enforce_cases m; simpl; rewrite ?Hvm; try ring; assumption.
  - intros Hy.
    assert (cos (atan2 (currentY m - anchorY m) (currentX m - anchorX m)) = 0)
      as Hcos.
    { destruct (atan2_polar (currentY m - anchorY m) (currentX m - anchorX m))
        as [Hc _].
      rewrite Hdx in *.
      assert (hypot 0 (currentY m - anchorY m) <> 0) as Hne.
      { intros E. pose proof (hypot_sqr 0 (currentY m - anchorY m)) as Hs.
        rewrite E in Hs. rewrite Hay in *.
        assert (currentY m - anchorY s = 0) by nra. lra. }
      apply Rmult_integral in Hc. tauto. }
    enforce_cases m; simpl; rewrite ?Hcos, ?Hax; try ring; assumption.
  - intros Hy Hpos.
    assert (springLength m = 0) as Hl0.
    { unfold springLength. rewrite Hdx, Hy, Hay.
      replace (anchorY s - anchorY s) with 0 by ring. apply hypot_zero. }
    rewrite enforceLimits_min by (rewrite Hl0, Hmin; assumption).
    simpl. rewrite Hdx, Hy, Hay, Hax, Hmin.
    replace (anchorY s - anchorY s) with 0 by ring.
    unfold atan2. destruct (Rlt_dec 0 0) as [F | _]; [lra |].
    rewrite cos_0. ring.
Qed.

Lemma vertical_motion_witness :
  update 1 initial
  = Some (enforceLimits (set_current 400 (300 + 9.8 * 1 * 1)
                           (set_velocity 0 (9.8 * 1) initial))).
Proof.
  apply (vertical_motion 1 initial); try reflexivity.
  apply freeStep_initial.
Defined.

(** X8.  [update] never changes the two flags; [dragTo] always starts (or
    continues) a drag, also when the pointer is out of range; [release]
    clears both flags. *)
Theorem flags_follow_the_calls (c : call) (s s' : SpringState) :
  exec c s = Some s' ->
  match c with
  | Update _ =>
      isDragged s' = isDragged s /\ isLimitReached s' = isLimitReached s
  | DragTo _ _ => isDragged s' = true
  | Release => isDragged s' = false /\ isLimitReached s' = false
  end.
Proof.
  destruct c as [dt | mx my |]; simpl; intros H.
  - now apply update_flags in H.
  - injection H as <-. apply dragTo_isDragged.
  - injection H as <-. split; reflexivity.
Qed.

Lemma flags_follow_the_calls_witness :
  isDragged (dragTo 400 1000 initial) = true.
Proof.
  exact (flags_follow_the_calls (DragTo 400 1000) initial _ eq_refl).
Defined.

(** X9.  A non-zero pending release velocity is handed over exactly once:
    a free-mode [update] on a state with such a velocity pending acts as on
    the state whose live velocity is that velocity and where nothing is
    pending, and whatever it returns has no pending release velocity
    left. *)
Theorem release_velocity_handed_over_once (dt : R) (s : SpringState) :
  isDragged s = false ->
  initialReleaseVelocityX s <> 0 \/ initialReleaseVelocityY s <> 0 ->
  update dt s =
  update dt (set_initialReleaseVelocity 0 0
               (set_velocity (initialReleaseVelocityX s)
                             (initialReleaseVelocityY s) s)) /\
  forall s', update dt s = Some s' -> noPending s'.
Proof.
  intros Hd Hp. split.
  - rewrite !update_free by assumption. unfold freeStep.
    rewrite (releaseHandoff_fires s) by assumption.
    rewrite releaseHandoff_idle by (split; reflexivity).
    reflexivity.
  - intros s' H. eapply update_clears_pending; eassumption.
Qed.

Lemma release_velocity_handed_over_once_witness :
  update 1 flung =
  update 1 (set_initialReleaseVelocity 0 0 (set_velocity 1 0 flung)).
Proof.
  apply (release_velocity_handed_over_once 1 flung).
  - reflexivity.
  - left. simpl. lra.
Defined.

(** ** Truncation *)

Lemma truncate_bounds (lo hi : Z) (x : R) :
  IZR lo <= x <= IZR hi -> (lo <= truncate x <= hi)%Z.
Proof.
  intros [Hlo Hhi]. unfold truncate.
  destruct (Rle_dec 0 x) as [Hx | Hx].
  - destruct (base_Int_part x) as [H1 H2]. split.
    + apply Z.lt_succ_r, lt_IZR. rewrite succ_IZR. lra.
    + apply le_IZR. lra.
  - destruct (base_Int_part (- x)) as [H1 H2]. split.
    + apply le_IZR. rewrite opp_IZR. lra.
    + apply Z.lt_succ_r, lt_IZR. rewrite succ_IZR, opp_IZR. lra.
Qed.

Lemma truncate_near (x : R) : Rabs (IZR (truncate x) - x) < 1.
Proof.
  unfold truncate. destruct (Rle_dec 0 x) as [Hx | Hx].
  - destruct (base_Int_part x) as [H1 H2].
    apply Rabs_def1; lra.
  - destruct (base_Int_part (- x)) as [H1 H2].
    rewrite opp_IZR. apply Rabs_def1; lra.
Qed.

Lemma leg_le_hypot dx dy : Rabs dx <= hypot dx dy.
Proof.
  pose proof (hypot_sqr dx dy) as Hs.
  assert (0 <= hypot dx dy) as Hh by apply sqrt_pos.
  apply Rabs_le. split; nra.
Qed.



(** * The renderer *)

(** ** [std::max], [std::min], [clamp] *)

Lemma fmax_cases a b : (a < b /\ fmax a b = b) \/ (b <= a /\ fmax a b = a).
Proof.
  unfold fmax. destruct (ltb a b) eqn:E.
  - apply ltb_true in E; auto.
  - apply ltb_false in E; auto.
Qed.

Lemma fmin_cases a b : (b < a /\ fmin a b = b) \/ (a <= b /\ fmin a b = a).
Proof.
  unfold fmin. destruct (ltb b a) eqn:E.
  - apply ltb_true in E; auto.
  - apply ltb_false in E; auto.
Qed.

(** X11.  [clamp] returns a value between its bounds when they are in
    order, the value itself when it already lies between them, and the lower
    bound when the bounds are crossed. *)
Theorem clamp_range (value min max : R) :
  (min <= max ->
   min <= clamp value min max <= max /\
   (min <= value <= max -> clamp value min max = value) /\
   (value < min -> clamp value min max = min) /\
   (max < value -> clamp value min max = max)) /\
  (max < min -> clamp value min max = min).
Proof.
  unfold clamp.
  destruct (fmin_cases value max) as [[H1 ->] | [H1 ->]];
    [destruct (fmax_cases min max) as [[H2 ->] | [H2 ->]]
    | destruct (fmax_cases min value) as [[H2 ->] | [H2 ->]]];
    repeat split; intros; lra.
Qed.

(** ** Casts *)

Lemma truncate_IZR (z : Z) : truncate (IZR z) = z.
Proof.
  pose proof (truncate_bounds z z (IZR z) (conj (Rle_refl _) (Rle_refl _))). lia.
Qed.

Lemma toUint8_some (lo hi : Z) (x : R) :
  (0 <= lo)%Z -> (hi <= 255)%Z -> IZR lo <= x <= IZR hi ->
  toUint8 x = Some (truncate x) /\ (lo <= truncate x <= hi)%Z.
Proof.
  intros Hlo Hhi Hx. pose proof (truncate_bounds lo hi x Hx) as Hb.
  split; [| exact Hb]. unfold toUint8.
  replace ((0 <=? truncate x)%Z) with true by (symmetry; apply Z.leb_le; lia).
  replace ((truncate x <=? 255)%Z) with true by (symmetry; apply Z.leb_le; lia).
  reflexivity.
Qed.

(** One channel of [interpolateColor], for a factor already in [0, 1]. *)
Lemma mix_channel (c1 c2 : Z) (f : R) :
  (0 <= c1 <= 255)%Z -> (0 <= c2 <= 255)%Z -> 0 <= f <= 1 ->
  exists z, toUint8 (IZR c1 * (1 - f) + IZR c2 * f) = Some z /\
    (Z.min c1 c2 <= z <= Z.max c1 c2)%Z /\
    (f = 0 -> z = c1) /\ (f = 1 -> z = c2).
Proof.
  intros H1 H2 Hf.
  assert (IZR (Z.min c1 c2) <= IZR c1 * (1 - f) + IZR c2 * f
          <= IZR (Z.max c1 c2)) as Hx.
  { assert (IZR (Z.min c1 c2) <= IZR c1 /\ IZR (Z.min c1 c2) <= IZR c2 /\
            IZR c1 <= IZR (Z.max c1 c2) /\ IZR c2 <= IZR (Z.max c1 c2))
      as (A & B & C & D) by (repeat split; apply IZR_le; lia).
    split; nra. }
  destruct (toUint8_some (Z.min c1 c2) (Z.max c1 c2) _
              ltac:(lia) ltac:(lia) Hx) as [E Hb].
  eexists; split; [exact E |]. split; [exact Hb |]. split; intros ->.
  - replace (IZR c1 * (1 - 0) + IZR c2 * 0) with (IZR c1) by ring.
    apply truncate_IZR.
  - replace (IZR c1 * (1 - 1) + IZR c2 * 1) with (IZR c2) by ring.
    apply truncate_IZR.
Qed.

Lemma clamped_factor (f : R) :
  0 <= fmax 0 (fmin 1 f) <= 1 /\
  (f <= 0 -> fmax 0 (fmin 1 f) = 0) /\
  (1 <= f -> fmax 0 (fmin 1 f) = 1).
Proof.
  destruct (fmin_cases 1 f) as [[H1 ->] | [H1 ->]];
    [destruct (fmax_cases 0 f) as [[H2 ->] | [H2 ->]]
    | destruct (fmax_cases 0 1) as [[H2 ->] | [H2 ->]]];
    repeat split; intros; lra.
Qed.

(** X12.  For two colours with [Uint8] channels [interpolateColor] never
    casts a value that is out of range; every colour channel of the result
    lies between the two given ones, the alpha channel is 255 whatever the
    given ones are, a factor of 0 or less gives the first colour and a
    factor of 1 or more the second. *)
Theorem interpolateColor_mixes (color1 color2 : SDL.SDL_Color) (factor : R) :
  validColor color1 -> validColor color2 ->
  exists c, interpolateColor color1 color2 factor = Some c /\
    validColor c /\ SDL.a c = 255%Z /\
    (Z.min (SDL.r color1) (SDL.r color2) <= SDL.r c
       <= Z.max (SDL.r color1) (SDL.r color2))%Z /\
    (Z.min (SDL.g color1) (SDL.g color2) <= SDL.g c
       <= Z.max (SDL.g color1) (SDL.g color2))%Z /\
    (Z.min (SDL.b color1) (SDL.b color2) <= SDL.b c
       <= Z.max (SDL.b color1) (SDL.b color2))%Z /\
    (factor <= 0 ->
     SDL.r c = SDL.r color1 /\ SDL.g c = SDL.g color1 /\
     SDL.b c = SDL.b color1) /\
    (1 <= factor ->
     SDL.r c = SDL.r color2 /\ SDL.g c = SDL.g color2 /\
     SDL.b c = SDL.b color2).
Proof.
  intros (Hr1 & Hg1 & Hb1 & _) (Hr2 & Hg2 & Hb2 & _).
  destruct (clamped_factor factor) as (Hf & Hf0 & Hf1).
  unfold interpolateColor. cbv zeta.
  destruct (mix_channel _ _ _ Hr1 Hr2 Hf) as (zr & -> & Br & Zr0 & Zr1).
  destruct (mix_channel _ _ _ Hg1 Hg2 Hf) as (zg & -> & Bg & Zg0 & Zg1).
  destruct (mix_channel _ _ _ Hb1 Hb2 Hf) as (zb & -> & Bb & Zb0 & Zb1).
  cbn [bind]. eexists; split; [reflexivity |].
  unfold validColor; cbn [SDL.r SDL.g SDL.b SDL.a].
  repeat split; try lia; auto.
Qed.

Lemma interpolateColor_mixes_witness :
  exists c, interpolateColor (neutralColor renderConfig)
              (stretchColor renderConfig) 0.5 = Some c /\
            SDL.a c = 255%Z.
Proof.
  destruct (interpolateColor_mixes (neutralColor renderConfig)
              (stretchColor renderConfig) 0.5) as (c & E & _ & Ha & _).
  - unfold validColor; simpl; lia.
  - unfold validColor; simpl; lia.
  - exists c. split; assumption.
Defined.

(** ** Loops *)

Lemma mapM_Forall2 {A B : Type} (f : A -> option B) (l : list A) :
  forall ys, mapM f l = Some ys -> Forall2 (fun x y => f x = Some y) l ys.
Proof.
  induction l as [| x l IH]; simpl; intros ys H.
  - injection H as <-. constructor.
  - destruct (f x) as [y |] eqn:E; simpl in H; [| discriminate].
    destruct (mapM f l) as [ys' |]; simpl in H; [| discriminate].
    injection H as <-. constructor; auto.
Qed.

Lemma mapM_map {A B : Type} (f : A -> option B) (g : A -> B) (l : list A) :
  (forall x, In x l -> f x = Some (g x)) -> mapM f l = Some (map g l).
Proof.
  induction l as [| x l IH]; simpl; intros H; [reflexivity |].
  rewrite (H x) by auto. simpl. rewrite IH by auto. reflexivity.
Qed.


Lemma Forall2_map_eq {A B C : Type} (p : A -> C) (q : B -> C) l ys :
  Forall2 (fun x y => q y = p x) l ys -> map q ys = map p l.
Proof. induction 1; simpl; congruence. Qed.

Lemma segments_fst {A : Type} (p : list A) :
  map fst (segments p) = removelast p.
Proof.
  induction p as [| p0 [| p1 rest] IH]; simpl in *; try reflexivity.
  now rewrite IH.
Qed.

Lemma segments_snd {A : Type} (p : list A) : map snd (segments p) = tl p.
Proof.
  induction p as [| p0 [| p1 rest] IH]; simpl in *; try reflexivity.
  now rewrite IH.
Qed.

Lemma segments_length {A : Type} (p : list A) :
  List.length (segments p) = pred (List.length p).
Proof.
  induction p as [| p0 [| p1 rest] IH]; simpl in *; try reflexivity.
  now rewrite IH.
Qed.

Lemma upTo_length (n : Z) : List.length (upTo n) = Z.to_nat (n + 1).
Proof. unfold upTo. now rewrite length_map, length_seq. Qed.


(** ** [render] *)

Lemma fdiv_inv a b v : a // b = Some v -> b <> 0 /\ v = a / b.
Proof.
  unfold fdiv. destruct (Req_dec_T b 0); [discriminate |].
  intros H; injection H as <-. auto.
Qed.

(** What a completed [render] has computed, step by step. *)
Lemma render_inv cfg s d :
  render cfg s = Some d ->
  let len := springLength s in
  let angle := atan2 (currentY s - anchorY s) (currentX s - anchorX s) in
  let deformedColor :=
    if ltb len (restLength s) then compressColor cfg else stretchColor cfg in
  let w := wireThickness cfg in
  (if ltb len (restLength s)
   then restLength s - minLength s <> 0
   else maxLength s - restLength s <> 0) /\
  (if ltb (Rabs (deformation s)) (maxDeformationThreshold cfg)
   then Some (neutralColor cfg)
   else interpolateColor (neutralColor cfg) deformedColor
          (fmin 1 (Rabs (deformation s)))) = Some (springColor d) /\
  dynamicRadius d =
    fmax (springRadius cfg * (1 - deformation s * 0.3))
         (springRadius cfg * 0.3) /\
  mapM (springPoint cfg s angle len (dynamicRadius d))
       (upTo (coils cfg * 20)) = Some (springPoints d) /\
  dynamicWireThickness d =
    clamp (if ltb len (restLength s)
           then w * (1 + deformation s * 0.5)
           else w * (1 - deformation s * 0.5)) 1 (w * 2) /\
  Forall2 (fun seg line =>
             gradientFrom line = fst seg /\ gradientTo line = snd seg /\
             gradientThickness line = dynamicWireThickness d /\
             interpolateColor (neutralColor cfg) deformedColor float_0_3
               = Some (startColor line) /\
             interpolateColor (neutralColor cfg) deformedColor float_0_7
               = Some (endColor line))
          (segments (springPoints d)) (gradientLines d) /\
  glowLines d =
    map (fun seg =>
           mkGlowLine (fst seg) (snd seg) (dynamicWireThickness d)
             (SDL.mkColor (SDL.r (springColor d)) (SDL.g (springColor d))
                          (SDL.b (springColor d)) 30))
        (segments (springPoints d)) /\
  anchorRect d = SDL.mkRect (truncate (anchorX s) - 5)
                            (truncate (anchorY s) - 5) 10 10 /\
  massRect d = SDL.mkRect (truncate (currentX s) - 5)
                          (truncate (currentY s) - 5) 10 10.
Proof.
  unfold render, deformation. fold (springLength s). cbv zeta.
  intros H.
  destruct (ltb (springLength s) (restLength s)) eqn:Hc.
  all: match type of H with
       | bind (?a // ?b) _ = _ =>
           destruct (a // b) as [def |] eqn:Ed; cbn [bind] in H;
           [apply fdiv_inv in Ed as [Hne ->] | discriminate]
       end.
  all: match type of H with
       | bind ?c _ = _ =>
           destruct c as [color |] eqn:Ecol; cbn [bind] in H;
           [| discriminate]
       end.
  all: match type of H with
       | bind ?c _ = _ =>
           destruct c as [points |] eqn:Ep; cbn [bind] in H;
           [| discriminate]
       end.
  all: match type of H with
       | bind ?c _ = _ =>
           destruct c as [gradient |] eqn:Eg; cbn [bind] in H;
           [| discriminate]
       end.
  all: injection H as <-; simpl.
  all: repeat split; try assumption; try reflexivity.
  all: apply mapM_Forall2 in Eg;
    eapply Forall2_impl; [| exact Eg]; simpl; intros seg line Hl.
  all: match type of Hl with
       | bind ?c _ = _ =>
           destruct c as [c0 |]; cbn [bind] in Hl; [| discriminate]
       end.
  all: match type of Hl with
       | bind ?c _ = _ =>
           destruct c as [c1 |]; cbn [bind] in Hl; [| discriminate]
       end.
  all: injection Hl as <-; simpl; repeat split; reflexivity.
Qed.

Lemma interpolateColor_defined color1 color2 factor :
  validColor color1 -> validColor color2 ->
  exists c, interpolateColor color1 color2 factor = Some c /\ validColor c.
Proof.
  intros (Hr1 & Hg1 & Hb1 & _) (Hr2 & Hg2 & Hb2 & _).
  destruct (clamped_factor factor) as (Hf & _).
  unfold interpolateColor. cbv zeta.
  destruct (mix_channel _ _ _ Hr1 Hr2 Hf) as (zr & -> & Br & _).
  destruct (mix_channel _ _ _ Hg1 Hg2 Hf) as (zg & -> & Bg & _).
  destruct (mix_channel _ _ _ Hb1 Hb2 Hf) as (zb & -> & Bb & _).
  cbn [bind]. eexists; split; [reflexivity |].
  unfold validColor; cbn [SDL.r SDL.g SDL.b SDL.a]. lia.
Qed.

Lemma mapM_total {A B : Type} (f : A -> option B) (l : list A) :
  (forall x, In x l -> exists y, f x = Some y) ->
  exists ys, mapM f l = Some ys.
Proof.
  induction l as [| x l IH]; simpl; intros H; [eauto |].
  destruct (H x) as [y ->]; [auto |].
  destruct IH as [ys ->]; [auto |]. simpl; eauto.
Qed.

Lemma renderConfig_colors :
  validColor (neutralColor renderConfig) /\
  validColor (stretchColor renderConfig) /\
  validColor (compressColor renderConfig).
Proof. unfold validColor; simpl; lia. Qed.

(** The lengths of a reachable state, as numbers. *)
Lemma reachable_lengths s :
  reachable s ->
  restLength s = 200 /\ minLength s = 100 /\ maxLength s = 450 /\
  100 <= springLength s <= 450.
Proof.
  intros Hr.
  pose proof (reachable_inv s Hr) as [_ He _ _ _].
  pose proof (reachable_params s Hr)
    as (_ & _ & Hrest & _ & _ & _ & _ & Hmin & Hmax).
  simpl in Hrest, Hmin, Hmax. unfold inEnvelope in He.
  repeat split; try assumption; lra.
Qed.

Lemma reachable_deformation s :
  reachable s ->
  0 <= deformation s <= 1 /\
  (springLength s < 200 ->
   deformation s = (200 - springLength s) / 100) /\
  (200 <= springLength s ->
   deformation s = (springLength s - 200) / 250).
Proof.
  intros Hr. destruct (reachable_lengths s Hr) as (Hrest & Hmin & Hmax & Hl).
  unfold deformation. rewrite Hrest, Hmin, Hmax.
  destruct (ltb (springLength s) 200) eqn:E.
  - apply ltb_true in E.
    replace (200 - 100) with 100 by lra.
    repeat split; intros; try lra.
  - apply ltb_false in E.
    replace (450 - 200) with 250 by lra.
    repeat split; intros; try lra.
Qed.

Lemma render_defined (s : SpringState) :
  reachable s -> exists d, render renderConfig s = Some d.
Proof.
  intros Hr. destruct (reachable_lengths s Hr) as (Hrest & Hmin & Hmax & Hl).
  destruct renderConfig_colors as (Vn & Vs & Vc).
  unfold render. cbv zeta. fold (springLength s).
  rewrite Hrest, Hmin, Hmax.
  assert (forall color2 f, validColor color2 ->
            exists c, interpolateColor (neutralColor renderConfig) color2 f
                      = Some c) as Hcol.
  { intros color2 f V.
    destruct (interpolateColor_defined _ color2 f Vn V) as (c & E & _).
    eauto. }
  destruct (ltb (springLength s) 200) eqn:E;
    rewrite fdiv_some by lra; cbn [bind].
  all: match goal with
       | |- exists d, bind ?c _ = _ =>
           assert (exists color, c = Some color) as [color ->]
       end.
  1,3: destruct (ltb _ (maxDeformationThreshold renderConfig)); eauto.
  all: cbn [bind].
  all: match goal with
       | |- exists d, bind (mapM ?f ?l) _ = _ =>
           destruct (mapM_total f l) as [points ->]
       end.
  1,3: intros i _; unfold springPoint;
    rewrite fdiv_some by (simpl; lra); cbn [bind]; eauto.
  all: cbn [bind].
  all: match goal with
       | |- exists d, bind (mapM ?f ?l) _ = _ =>
           destruct (mapM_total f l) as [gradient ->]
       end.
  1,3: intros seg _;
    match goal with
    | |- exists y, bind (interpolateColor ?n ?c ?f) _ = _ =>
        destruct (Hcol c f) as [c0 ->]; [assumption |]; cbn [bind]
    end;
    match goal with
    | |- exists y, bind (interpolateColor ?n ?c ?f) _ = _ =>
        destruct (Hcol c f) as [c1 ->]; [assumption |]; cbn [bind]
    end; eauto.
  all: cbn [bind]; eauto.
Qed.



(** X15.  Whatever the state and the configuration, a completed [render]
    draws with a coil radius of at least 0.3 times the configured one and,
    when the base wire thickness is at least 0.5, with a wire between 1 and
    twice the base thickness. *)
Theorem render_radius_floor_and_thickness_clamp
    (cfg : RenderConfig) (s : SpringState) (d : Drawing) :
  render cfg s = Some d ->
  springRadius cfg * 0.3 <= dynamicRadius d /\
  (0.5 <= wireThickness cfg ->
   1 <= dynamicWireThickness d <= wireThickness cfg * 2).
Proof.
  intros Hd. apply render_inv in Hd. cbv zeta in Hd.
  destruct Hd as (_ & _ & -> & _ & -> & _). split.
  - match goal with
    | |- _ <= fmax ?a ?b =>
        destruct (fmax_cases a b) as [[H ->] | [H ->]]; lra
    end.
  - intros Hw. unfold clamp.
    match goal with
    | |- _ <= fmax ?lo (fmin ?v ?hi) <= _ =>
        destruct (fmin_cases v hi) as [[H1 ->] | [H1 ->]];
        [destruct (fmax_cases lo hi) as [[H2 ->] | [H2 ->]]
        | destruct (fmax_cases lo v) as [[H2 ->] | [H2 ->]]]; lra
    end.
Qed.

Lemma render_radius_floor_and_thickness_clamp_witness :
  exists d, render renderConfig initial = Some d /\
    springRadius renderConfig * 0.3 <= dynamicRadius d.
Proof.
  destruct (render_defined initial reachable_initial) as [d Hd].
  exists d. split; [exact Hd |].
  apply (render_radius_floor_and_thickness_clamp renderConfig initial d Hd).
Defined.

(** ** The coil *)


Lemma render_points_length cfg s d :
  render cfg s = Some d ->
  List.length (springPoints d) = Z.to_nat (coils cfg * 20 + 1).
Proof.
  intros Hd. apply render_inv in Hd. cbv zeta in Hd.
  destruct Hd as (_ & _ & _ & Hpts & _).
  apply mapM_Forall2, Forall2_length in Hpts.
  rewrite <- Hpts. apply upTo_length.
Qed.






(** X18.  The gradient lines and the glow lines that [render] draws each
    form one connected chain through the coil points, in order: line [i]
    runs from point [i] to point [i + 1]; all have the wire thickness, and
    the glow has the spring colour with alpha 30. *)
Theorem coil_lines_are_connected
    (cfg : RenderConfig) (s : SpringState) (d : Drawing) :
  render cfg s = Some d ->
  map gradientFrom (gradientLines d) = removelast (springPoints d) /\
  map gradientTo (gradientLines d) = tl (springPoints d) /\
  map glowFrom (glowLines d) = removelast (springPoints d) /\
  map glowTo (glowLines d) = tl (springPoints d) /\
  Forall (fun l => gradientThickness l = dynamicWireThickness d)
         (gradientLines d) /\
  Forall (fun l => glowThickness l = dynamicWireThickness d /\
                   SDL.r (glowColor l) = SDL.r (springColor d) /\
                   SDL.g (glowColor l) = SDL.g (springColor d) /\
                   SDL.b (glowColor l) = SDL.b (springColor d) /\
                   SDL.a (glowColor l) = 30%Z)
         (glowLines d).
Proof.
  intros Hd. apply render_inv in Hd. cbv zeta in Hd.
  destruct Hd as (_ & _ & _ & _ & _ & Hg & Hglow & _).
  repeat split.
  - rewrite <- segments_fst. apply Forall2_map_eq.
    eapply Forall2_impl; [| exact Hg]. simpl; tauto.
  - rewrite <- segments_snd. apply Forall2_map_eq.
    eapply Forall2_impl; [| exact Hg]. simpl; tauto.
  - rewrite Hglow, map_map. simpl. apply segments_fst.
  - rewrite Hglow, map_map. simpl. apply segments_snd.
  - clear Hglow. induction Hg as [| seg l segs ls H _ IH]; constructor.
    + tauto.
    + exact IH.
  - rewrite Hglow. apply Forall_forall. intros l Hin.
    apply in_map_iff in Hin as (seg & <- & _). simpl. tauto.
Qed.

Lemma coil_lines_are_connected_witness :
  exists d, render renderConfig initial = Some d /\
    map gradientFrom (gradientLines d) = removelast (springPoints d).
Proof.
  destruct (render_defined initial reachable_initial) as [d Hd].
  exists d. split; [exact Hd |].
  apply (coil_lines_are_connected renderConfig initial d Hd).
Defined.

(** ** Colours *)

Lemma interpolateColor_at_one color1 color2 factor :
  validColor color1 -> validColor color2 -> 1 <= factor ->
  interpolateColor color1 color2 factor
  = Some (SDL.mkColor (SDL.r color2) (SDL.g color2) (SDL.b color2) 255).
Proof.
  intros (Hr1 & Hg1 & Hb1 & _) (Hr2 & Hg2 & Hb2 & _) Hf.
  destruct (clamped_factor factor) as (H01 & _ & H1).
  specialize (H1 Hf).
  unfold interpolateColor. cbv zeta. rewrite H1.
  destruct (mix_channel _ _ 1 Hr1 Hr2 ltac:(lra)) as (zr & -> & _ & _ & Zr).
  destruct (mix_channel _ _ 1 Hg1 Hg2 ltac:(lra)) as (zg & -> & _ & _ & Zg).
  destruct (mix_channel _ _ 1 Hb1 Hb2 ltac:(lra)) as (zb & -> & _ & _ & Zb).
  cbn [bind]. now rewrite Zr, Zg, Zb.
Qed.

Lemma render_color_valid s d :
  render renderConfig s = Some d -> validColor (springColor d).
Proof.
  intros Hd. apply render_inv in Hd. cbv zeta in Hd.
  destruct Hd as (_ & Hcol & _).
  destruct renderConfig_colors as (Vn & Vs & Vc).
  destruct (ltb (Rabs (deformation s)) _).
  - injection Hcol as <-. exact Vn.
  - match type of Hcol with
    | interpolateColor ?n ?c ?f = _ =>
        destruct (interpolateColor_defined n c f) as (c' & E & V);
        [exact Vn | destruct (ltb _ _); assumption |]
    end.
    congruence.
Qed.

(** X13.  On every reachable state [render], with the constructor's
    configuration, completes: it divides by no zero and casts no value out
    of the [Uint8] range.  It draws 181 coil points, 180 gradient lines and
    180 glow lines, in a colour with [Uint8] channels. *)
Theorem render_completes (s : SpringState) :
  reachable s ->
  exists d, render renderConfig s = Some d /\
    List.length (springPoints d) = 181%nat /\
    List.length (gradientLines d) = 180%nat /\
    List.length (glowLines d) = 180%nat /\
    validColor (springColor d).
Proof.
  intros Hr. destruct (render_defined s Hr) as [d Hd].
  exists d. split; [exact Hd |].
  pose proof (render_points_length renderConfig s d Hd) as Hlen.
  simpl in Hlen.
  pose proof (render_inv renderConfig s d Hd) as Hinv. cbv zeta in Hinv.
  destruct Hinv as (_ & _ & _ & _ & _ & Hg & Hglow & _).
  apply Forall2_length in Hg. rewrite segments_length in Hg.
  split; [rewrite Hlen; reflexivity |].
  split; [rewrite <- Hg, Hlen; reflexivity |].
  split; [rewrite Hglow, length_map, segments_length, Hlen; reflexivity |].
  apply (render_color_valid s d Hd).
Qed.

Lemma render_completes_witness :
  exists d, render renderConfig initial = Some d /\
    List.length (springPoints d) = 181%nat.
Proof.
  destruct (render_completes initial reachable_initial) as (d & Hd & Hl & _).
  exists d. split; assumption.
Defined.

(** X19.  On a reachable state the spring is drawn in the neutral colour
    while its length is strictly between 180 and 250, in the pure compress
    colour at the minimum length and in the pure stretch colour at the
    maximum length; its alpha is always 255. *)
Theorem spring_colour_by_length (s : SpringState) (d : Drawing) :
  reachable s -> render renderConfig s = Some d ->
  (180 < springLength s < 250 ->
   springColor d = neutralColor renderConfig) /\
  (springLength s = minLength s ->
   springColor d = compressColor renderConfig) /\
  (springLength s = maxLength s ->
   springColor d = stretchColor renderConfig) /\
  SDL.a (springColor d) = 255%Z.
Proof.
  intros Hr Hd.
  destruct (reachable_lengths s Hr) as (Hrest & Hmin & Hmax & Hl).
  destruct (reachable_deformation s Hr) as (Hdef & Hlo & Hhi).
  destruct renderConfig_colors as (Vn & Vs & Vc).
  apply render_inv in Hd. cbv zeta in Hd.
  destruct Hd as (_ & Hcol & _).
  rewrite (Rabs_pos_eq (deformation s)) in Hcol by lra.
  rewrite Hrest in Hcol. simpl maxDeformationThreshold in Hcol.
  repeat split.
  - intros Hn.
    assert (deformation s < 0.2) as Hsmall.
    { destruct (Rlt_dec (springLength s) 200) as [H | H].
      - rewrite Hlo by assumption. lra.
      - rewrite Hhi by lra. lra. }
    apply ltb_true in Hsmall. rewrite Hsmall in Hcol. congruence.
  - intros Hat. rewrite Hmin in Hat.
    assert (deformation s = 1) as E by (rewrite Hlo by lra; lra).
    rewrite E in Hcol.
    replace (ltb 1 0.2) with false in Hcol
      by (symmetry; apply ltb_false; lra).
    replace (ltb (springLength s) 200) with true in Hcol
      by (symmetry; apply ltb_true; lra).
    rewrite interpolateColor_at_one in Hcol
      by (try assumption; destruct (fmin_cases 1 1) as [[? ->] | [? ->]]; lra).
    injection Hcol as <-. reflexivity.
  - intros Hat. rewrite Hmax in Hat.
    assert (deformation s = 1) as E by (rewrite Hhi by lra; lra).
    rewrite E in Hcol.
    replace (ltb 1 0.2) with false in Hcol
      by (symmetry; apply ltb_false; lra).
    replace (ltb (springLength s) 200) with false in Hcol
      by (symmetry; apply ltb_false; lra).
    rewrite interpolateColor_at_one in Hcol
      by (try assumption; destruct (fmin_cases 1 1) as [[? ->] | [? ->]]; lra).
    injection Hcol as <-. reflexivity.
  - destruct (ltb (deformation s) 0.2).
    + injection Hcol as <-. reflexivity.
    + unfold interpolateColor in Hcol.
      repeat match type of Hcol with
             | bind ?c _ = _ =>
                 destruct c; cbn [bind] in Hcol; [| discriminate]
             end.
      injection Hcol as <-. reflexivity.
Qed.

Lemma spring_colour_by_length_witness :
  exists d, render renderConfig initial = Some d /\
    springColor d = neutralColor renderConfig.
Proof.
  destruct (render_defined initial reachable_initial) as [d Hd].
  exists d. split; [exact Hd |].
  apply (spring_colour_by_length initial d reachable_initial Hd).
  destruct initial_geometry as (_ & _ & ->). lra.
Defined.

(** * The driver *)

(** X20.  A left-button press on any pixel of the square that [render]
    draws for the mass starts a drag to that pixel, whatever else the
    simulation is doing. *)
Theorem click_on_mass_starts_drag
    (cfg : RenderConfig) (sim : SpringSimulation) (d : Drawing) (px py : Z) :
  render cfg (physics sim) = Some d ->
  inRect (massRect d) px py ->
  handleEvent (SDL_MOUSEBUTTONDOWN SDL_BUTTON_LEFT px py) sim
  = mkSpringSimulation (dragTo (IZR px) (IZR py) (physics sim))
      (running sim) true.
Proof.
  intros Hd Hin. apply render_inv in Hd. cbv zeta in Hd.
  destruct Hd as (_ & _ & _ & _ & _ & _ & _ & _ & Hrect).
  rewrite Hrect in Hin. unfold inRect in Hin; simpl in Hin.
  simpl handleEvent.
  set (tx := truncate (currentX (physics sim))) in *.
  set (ty := truncate (currentY (physics sim))) in *.
  assert (-5 <= IZR (px - tx) <= 4 /\ -5 <= IZR (py - ty) <= 4)
    as [Ha Hb] by (repeat split; apply IZR_le; lia).
  assert (hypot (IZR (px - tx)) (IZR (py - ty)) < 10) as Hnear.
  { pose proof (hypot_sqr (IZR (px - tx)) (IZR (py - ty))) as Hs.
    assert (0 <= hypot (IZR (px - tx)) (IZR (py - ty))) by apply sqrt_pos.
    nra. }
  apply ltb_true in Hnear. now rewrite Hnear.
Qed.

Lemma click_on_mass_starts_drag_witness :
  handleEvent (SDL_MOUSEBUTTONDOWN SDL_BUTTON_LEFT 402 297) newSimulation
  = mkSpringSimulation (dragTo (IZR 402) (IZR 297) initial) true true.
Proof.
  destruct (render_defined initial reachable_initial) as [d Hd].
  apply (click_on_mass_starts_drag renderConfig newSimulation d 402 297 Hd).
  pose proof (render_inv renderConfig initial d Hd) as Hinv.
  cbv zeta in Hinv.
  destruct Hinv as (_ & _ & _ & _ & _ & _ & _ & _ & ->).
  unfold inRect; simpl. unfold SCREEN_WIDTH.
  replace (800 / 2) with (IZR 400) by lra.
  rewrite !truncate_IZR. lia.
Defined.

Lemma handleEvent_keeps event sim :
  isDragging sim = isDragged (physics sim) /\ reachable (physics sim) ->
  isDragging (handleEvent event sim)
  = isDragged (physics (handleEvent event sim)) /\
  reachable (physics (handleEvent event sim)).
Proof.
  intros [Hflag Hr].
  destruct event as [| button mx my | button mx my | mx my |]; simpl.
  - auto.
  - destruct (button =? SDL_BUTTON_LEFT)%Z; [| auto].
    destruct (ltb _ 10); [| auto]. simpl. split.
    + symmetry. apply dragTo_isDragged.
    + apply (reachable_step (DragTo (IZR mx) (IZR my)) (physics sim));
        [assumption | reflexivity].
  - destruct ((button =? SDL_BUTTON_LEFT)%Z && isDragging sim); [| auto].
    simpl. split; [reflexivity |].
    apply (reachable_step Release (physics sim)); [assumption | reflexivity].
  - destruct (isDragging sim) eqn:Hd; [| rewrite Hd; auto].
    simpl. split.
    + symmetry. apply dragTo_isDragged.
    + apply (reachable_step (DragTo (IZR mx) (IZR my)) (physics sim));
        [assumption | reflexivity].
  - auto.
Qed.

Lemma handleEvents_keep events : forall sim,
  isDragging sim = isDragged (physics sim) /\ reachable (physics sim) ->
  let sim' := fold_left (fun s e => handleEvent e s) events sim in
  isDragging sim' = isDragged (physics sim') /\ reachable (physics sim').
Proof.
  induction events as [| e events IH]; simpl; intros sim H; [exact H |].
  apply IH. now apply handleEvent_keeps.
Qed.

Lemma frame_keeps events currentTime st st' :
  isDragging (simulation st) = isDragged (physics (simulation st)) /\
  reachable (physics (simulation st)) ->
  frame events currentTime st = Some st' ->
  isDragging (simulation st') = isDragged (physics (simulation st')) /\
  reachable (physics (simulation st')).
Proof.
  intros H Hf. unfold frame in Hf. cbv zeta in Hf.
  destruct (handleEvents_keep events (simulation st) H) as [Hflag Hr].
  destruct (update _ _) as [p |] eqn:Hu; cbn [bind] in Hf; [| discriminate].
  injection Hf as <-. simpl. split.
  - apply update_flags in Hu as [-> _]. exact Hflag.
  - eapply (reachable_step (Update _)); [exact Hr | exact Hu].
Qed.

Lemma loopReachable_keeps st :
  loopReachable st ->
  isDragging (simulation st) = isDragged (physics (simulation st)) /\
  reachable (physics (simulation st)).
Proof.
  induction 1 as [t0 | events t st st' _ IH _ Hf].
  - simpl. split; [reflexivity | exact reachable_initial].
  - eapply frame_keeps; eassumption.
Qed.

Lemma runLoop_reachable frames : forall st st',
  loopReachable st -> runLoop frames st = Some st' -> loopReachable st'.
Proof.
  induction frames as [| [events t] frames IH]; simpl; intros st st' Hr H.
  - now injection H as <-.
  - destruct (running (simulation st)) eqn:Hrun.
    + destruct (frame events t st) as [st1 |] eqn:Hf; cbn [bind] in H;
        [| discriminate].
      eapply IH; [| exact H].
      eapply loopReachable_frame; eassumption.
    + now injection H as <-.
Qed.

(** X21.  Through the whole event loop the driver's own flag [isDragging]
    agrees with the engine's [isDragged]. *)
Theorem driver_flag_agrees (st : LoopState) :
  loopReachable st ->
  isDragging (simulation st) = isDragged (physics (simulation st)).
Proof. intros H. apply (loopReachable_keeps st H). Qed.

Lemma driver_flag_agrees_witness :
  isDragging newSimulation = isDragged (physics newSimulation).
Proof.
  exact (driver_flag_agrees (mkLoopState newSimulation 0)
           (loopReachable_start 0)).
Defined.

(** A pass through the loop completes when the clock has advanced. *)
Lemma frame_completes events currentTime st :
  loopReachable st ->
  ((currentTime - lastTime st) mod 2 ^ 64 <> 0)%Z ->
  exists st', frame events currentTime st = Some st'.
Proof.
  intros Hl Hne.
  destruct (handleEvents_keep events (simulation st)
              (loopReachable_keeps st Hl)) as [_ Hr].
  unfold frame. cbv zeta.
  assert (IZR ((currentTime - lastTime st) mod 2 ^ 64) / 1000 <> 0) as Hdt.
  { apply not_0_IZR in Hne. intros E. apply Hne. lra. }
  destruct (update_total _ _ Hr (or_intror Hdt)) as [p ->].
  cbn [bind]. eauto.
Qed.

(** X22.  Whatever events and clock values the loop of [run] is given, in
    every state it completes with the mass is at most 450 from the anchor
    in each coordinate, and so are the [int] casts of its position. *)
Theorem driver_keeps_the_mass_in_the_box
    (frames : list (list SDL_Event * Z)) (t0 : Z) (st : LoopState) :
  runLoop frames (mkLoopState newSimulation t0) = Some st ->
  let s := physics (simulation st) in
  -50 <= currentX s <= 850 /\ -350 <= currentY s <= 550 /\
  (-50 <= truncate (currentX s) <= 850)%Z /\
  (-350 <= truncate (currentY s) <= 550)%Z.
Proof.
  intros Hrun s.
  assert (reachable s) as Hr.
  { apply (loopReachable_keeps st).
    eapply runLoop_reachable; [apply loopReachable_start | exact Hrun]. }
  pose proof (reachable_inv s Hr) as [_ He _ _ _].
  pose proof (reachable_params s Hr)
    as (Hax & Hay & _ & _ & _ & _ & _ & _ & Hmax).
  simpl in Hax, Hay, Hmax. unfold SCREEN_WIDTH in Hax.
  unfold inEnvelope, springLength in He.
  pose proof (leg_le_hypot (currentX s - anchorX s) (currentY s - anchorY s))
    as Hx.
  pose proof (leg_le_hypot (currentY s - anchorY s) (currentX s - anchorX s))
    as Hy.
  replace (hypot (currentY s - anchorY s) (currentX s - anchorX s))
    with (hypot (currentX s - anchorX s) (currentY s - anchorY s)) in Hy
    by (unfold hypot; f_equal; ring).
  pose proof (Rle_abs (currentX s - anchorX s)) as P1.
  pose proof (Rle_abs (- (currentX s - anchorX s))) as P2.
  pose proof (Rle_abs (currentY s - anchorY s)) as P3.
  pose proof (Rle_abs (- (currentY s - anchorY s))) as P4.
  rewrite Rabs_Ropp in P2, P4. rewrite Hax, Hay in *.
  assert (-50 <= currentX s <= 850 /\ -350 <= currentY s <= 550)
    as [Hbx Hby] by lra.
  repeat split; try lra;
    first [ apply (truncate_bounds (-50) 850 (currentX s)); lra
          | apply (truncate_bounds (-350) 550 (currentY s)); lra ].
Qed.

(** A press on the mass and a pointer motion far out of range, handled
    sixteen milliseconds after the start. *)
Lemma driver_keeps_the_mass_in_the_box_witness :
  exists st,
    runLoop [([SDL_MOUSEBUTTONDOWN SDL_BUTTON_LEFT 400 300;
               SDL_MOUSEMOTION 0 336], 16%Z)]
            (mkLoopState newSimulation 0) = Some st /\
    -50 <= currentX (physics (simulation st)) <= 850.
Proof.
  destruct (frame_completes
              [SDL_MOUSEBUTTONDOWN SDL_BUTTON_LEFT 400 300;
               SDL_MOUSEMOTION 0 336] 16 (mkLoopState newSimulation 0)
              (loopReachable_start 0)) as [st Hf].
  { cbn [lastTime]. intros E. discriminate E. }
  assert (runLoop [([SDL_MOUSEBUTTONDOWN SDL_BUTTON_LEFT 400 300;
                     SDL_MOUSEMOTION 0 336], 16%Z)]
                  (mkLoopState newSimulation 0) = Some st) as Hrun.
  { cbn [runLoop simulation running newSimulation]. rewrite Hf. reflexivity. }
  exists st. split; [exact Hrun |].
  apply (driver_keeps_the_mass_in_the_box _ 0 st Hrun).
Defined.

(** X23.  The time step the loop passes to [update] is never negative, and
    a pass through the loop divides by zero in exactly one situation: a drag
    is in progress once the events are handled and the millisecond clock has
    not advanced since the previous pass. *)
Theorem frame_divides_by_zero_iff
    (events : list SDL_Event) (currentTime : Z) (st : LoopState) :
  loopReachable st ->
  let sim := fold_left (fun s e => handleEvent e s) events (simulation st) in
  let elapsed := ((currentTime - lastTime st) mod 2 ^ 64)%Z in
  0 <= IZR elapsed / 1000 /\
  (frame events currentTime st = None <->
   isDragging sim = true /\ elapsed = 0%Z).
Proof.
  intros Hl sim elapsed.
  destruct (handleEvents_keep events (simulation st)
              (loopReachable_keeps st Hl)) as [Hflag Hr].
  fold sim in Hflag, Hr.
  assert (0 <= elapsed)%Z as Hpos by (apply Z.mod_pos_bound; lia).
  assert (0 <= IZR elapsed) as Hpos' by (apply IZR_le in Hpos; exact Hpos).
  split; [lra |].
  unfold frame. cbv zeta. fold sim. fold elapsed.
  split.
  - intros Hf.
    destruct (update (IZR elapsed / 1000) (physics sim)) as [p |] eqn:Hu;
      cbn [bind] in Hf; [discriminate |].
    destruct (isDragged (physics sim)) eqn:Hd.
    + split; [congruence |].
      destruct (Z.eq_dec elapsed 0) as [| Hne]; [assumption |].
      assert (IZR elapsed / 1000 <> 0) as Hdt.
      { apply not_0_IZR in Hne. intros E.
        apply Hne. lra. }
      destruct (update_total (physics sim) (IZR elapsed / 1000) Hr
                  (or_intror Hdt)) as [p E].
      congruence.
    + destruct (update_total (physics sim) (IZR elapsed / 1000) Hr
                  (or_introl Hd)) as [p E].
      congruence.
  - intros [Hd ->].
    replace (IZR 0 / 1000) with 0 by lra.
    rewrite update_dragged by congruence.
    rewrite sampleDrag_zero. reflexivity.
Qed.

Lemma press_at_rest :
  isDragging (handleEvent (SDL_MOUSEBUTTONDOWN SDL_BUTTON_LEFT 400 300)
                newSimulation) = true.
Proof.
  unfold handleEvent, newSimulation.
  cbn [physics currentX currentY initial running isDragging].
  rewrite Z.eqb_refl. unfold SCREEN_WIDTH.
  replace (800 / 2) with (IZR 400) by lra.
  replace 300 with (IZR 300) by reflexivity.
  rewrite !truncate_IZR, !Z.sub_diag, hypot_zero.
  replace (ltb 0 10) with true by (symmetry; apply ltb_true; lra).
  reflexivity.
Qed.

Lemma frame_divides_by_zero_iff_witness :
  frame [SDL_MOUSEBUTTONDOWN SDL_BUTTON_LEFT 400 300] 7
        (mkLoopState newSimulation 7) = None.
Proof.
  apply (frame_divides_by_zero_iff
           [SDL_MOUSEBUTTONDOWN SDL_BUTTON_LEFT 400 300] 7
           (mkLoopState newSimulation 7) (loopReachable_start 7)).
  split; [exact press_at_rest | reflexivity].
Defined.

(** * The lines handed to the draw calls *)






